(** * nilearn/_utils/ndimage.py : connected components and peak detection

    A shallow embedding of [largest_connected_component] and
    [_peak_local_max] together with the numpy / scipy.ndimage primitives
    they call, and the properties of the two functions.

    Arrays are dense, C-ordered (row-major) buffers with a shape, as numpy
    stores them; a cell is named by its flat index and has the coordinates
    [unravel_index] gives it.  Intensities are floats, held as the
    rationals they denote ([Q]): comparisons and maxima are exact on
    them, and the one operation of the code that rounds, the product of
    line 151, is written out ([float_mul]).  NaN is outside this model,
    and [inf] only arises as the result of that product.
    The scipy and numpy primitives ([ndimage.label],
    [ndimage.maximum_filter], [bincount], [argmax], [argsort], ...) are not
    part of the repository; they are written out from their documented
    behaviour. *)

From Stdlib Require Import List Arith ZArith QArith Bool Lia Permutation Sorted Floats.
Import ListNotations.

Close Scope Q_scope.
Open Scope nat_scope.

Set Implicit Arguments.

(** ** Arrays *)

Record ndarray (A : Type) : Type := mk_ndarray {
  shape : list nat;
  flat  : list A
}.

(** Number of cells a shape describes (numpy's [size]). *)
Definition shape_size (sh : list nat) : nat := fold_right Nat.mul 1 sh.

Definition well_shaped {A} (a : ndarray A) : Prop :=
  length (flat a) = shape_size (shape a).

(** [np.unravel_index]: flat C-order index to coordinates. *)
Fixpoint unravel_index (i : nat) (sh : list nat) : list nat :=
  match sh with
  | [] => []
  | _ :: rest => (i / shape_size rest) :: unravel_index (i mod shape_size rest) rest
  end.

(** [np.ravel_multi_index]: coordinates to flat C-order index. *)
Fixpoint ravel_multi_index (c : list nat) (sh : list nat) : nat :=
  match c, sh with
  | x :: c', _ :: rest => x * shape_size rest + ravel_multi_index c' rest
  | _, _ => 0
  end.

(** Coordinates that address a cell of the shape. *)
Fixpoint in_bounds (p : list Z) (sh : list nat) : bool :=
  match p, sh with
  | [], [] => true
  | x :: p', d :: rest => (0 <=? x)%Z && (x <? Z.of_nat d)%Z && in_bounds p' rest
  | _, _ => false
  end.

(** numpy dtypes as far as the two functions look at them: what counts as
    non-zero ([astype(bool)], the features of [ndimage.label]) and how a
    boolean is cast back into the type. *)
Class Dtype (A : Type) : Type := {
  nonzero : A -> bool;
  of_bool : bool -> A
}.

#[export] Instance Dtype_bool : Dtype bool :=
  {| nonzero := fun b => b; of_bool := fun b => b |}.

#[export] Instance Dtype_nat : Dtype nat :=
  {| nonzero := fun n => negb (n =? 0); of_bool := fun b => if b then 1 else 0 |}.

#[export] Instance Dtype_Q : Dtype Q :=
  {| nonzero := fun q => negb (Qeq_bool q 0); of_bool := fun b => if b then 1%Q else 0%Q |}.

(** [a.astype(T)] between the modelled dtypes, through the truth value. *)
Definition astype_bool {A} `{Dtype A} (a : ndarray A) : ndarray bool :=
  mk_ndarray (shape a) (map nonzero (flat a)).

Definition astype_of_bool {A} `{Dtype A} (a : ndarray bool) : ndarray A :=
  mk_ndarray (shape a) (map of_bool (flat a)).

(** [a == k] for an integer array. *)
Definition eq_scalar (a : ndarray nat) (k : nat) : ndarray bool :=
  mk_ndarray (shape a) (map (fun l => l =? k) (flat a)).

(** ** scipy.ndimage.label

    [ndimage.label(input)] is called without a [structure]; scipy then
    uses [generate_binary_structure(input.ndim, 1)]: the 3x...x3 element
    that is true at the offsets whose squared distance from the centre is
    at most the connectivity. *)

Definition generate_binary_structure (connectivity : nat) (offset : list Z) : bool :=
  forallb (fun o => (Z.abs o <=? 1)%Z) offset
  && (fold_right (fun o acc => o * o + acc)%Z 0%Z offset <=? Z.of_nat connectivity)%Z.

Fixpoint offset_between (c d : list nat) : option (list Z) :=
  match c, d with
  | [], [] => Some []
  | x :: c', y :: d' =>
      match offset_between c' d' with
      | Some o => Some ((Z.of_nat y - Z.of_nat x)%Z :: o)
      | None => None
      end
  | _, _ => None
  end.

(** Two cells are neighbours when the structuring element is set at the
    offset between their coordinates (its centre, the zero offset, is). *)
Definition neighbours (connectivity : nat) (sh : list nat) (i j : nat) : bool :=
  match offset_between (unravel_index i sh) (unravel_index j sh) with
  | Some o => generate_binary_structure connectivity o
  | None => false
  end.

Section Labelling.
(** The labelling itself, over any neighbour relation [adj] on the cells
    [0 .. n-1] (flat indices) and any feature mask.  scipy scans the array
    line by line and merges provisional labels; what it returns is the
    partition of the features into the regions of the structure, numbered
    from 1 in the order in which the scan in C order meets the first cell
    of each region.  The scan below yields that result directly: it flood
    fills a region when it meets its first cell. *)
Variable adj : nat -> nat -> bool.
Variable feat : list bool.

Definition is_feat (i : nat) : bool := nth i feat false.
Definition marked (s : list bool) (i : nat) : bool := nth i s false.

(** One dilation of the marked set inside the features. *)
Definition grow (s : list bool) : list bool :=
  map (fun j => marked s j
                || (is_feat j && existsb (fun i => marked s i && adj i j) (seq 0 (length feat))))
      (seq 0 (length feat)).

Definition single (seed : nat) : list bool :=
  map (fun j => j =? seed) (seq 0 (length feat)).

(** Flood fill from a seed: dilate until nothing can be added (one
    round per cell is always enough). *)
Definition flood (seed : nat) : list bool :=
  Nat.iter (length feat) grow (single seed).

Definition paint (region : list bool) (l : nat) (labels : list nat) : list nat :=
  map (fun j => if marked region j then l else nth j labels 0) (seq 0 (length feat)).

(** Raster scan: every feature cell met without a label starts the next
    region, which is flood filled with the next label. *)
Fixpoint label_scan (cells : list nat) (labels : list nat) (nb : nat)
  : list nat * nat :=
  match cells with
  | [] => (labels, nb)
  | i :: rest =>
      if is_feat i && (nth i labels 0 =? 0)
      then label_scan rest (paint (flood i) (S nb) labels) (S nb)
      else label_scan rest labels nb
  end.

Definition label_cells : list nat * nat :=
  label_scan (seq 0 (length feat)) (repeat 0 (length feat)) 0.

(** What the labelling is measured against: two feature cells are
    connected when a chain of neighbouring feature cells links them. *)
Inductive connected : nat -> nat -> Prop :=
| connected_refl i : is_feat i = true -> connected i i
| connected_step i j k :
    connected i j -> adj j k = true -> is_feat k = true -> connected i k.

Definition count_true (s : list bool) : nat := count_occ bool_dec s true.

(** The state of the raster scan once the cells before [i] are done. *)
Record scan_inv (i : nat) (labels : list nat) (nb : nat) : Prop := {
  inv_length : length labels = length feat;
  inv_bound : forall j, nth j labels 0 <= nb;
  inv_feat : forall j, nth j labels 0 <> 0 -> is_feat j = true;
  inv_done : forall j, j < i -> is_feat j = true -> nth j labels 0 <> 0;
  inv_closed : forall j k, nth j labels 0 <> 0 -> connected j k ->
                           nth k labels 0 = nth j labels 0;
  inv_same : forall j k, nth j labels 0 <> 0 -> nth j labels 0 = nth k labels 0 ->
                         connected j k;
  inv_first : forall l, 1 <= l <= nb ->
              exists r, r < i /\ nth r labels 0 = l /\
                        forall j, l <= nth j labels 0 -> r <= j
}.
End Labelling.

Definition ndimage_label_with {A} `{Dtype A} (connectivity : nat) (input : ndarray A)
  : ndarray nat * nat :=
  let (labels, nb) :=
    label_cells (neighbours connectivity (shape input)) (map nonzero (flat input)) in
  (mk_ndarray (shape input) labels, nb).

(** [ndimage.label(input)] with the default structure (connectivity 1). *)
Definition ndimage_label {A} `{Dtype A} (input : ndarray A) : ndarray nat * nat :=
  ndimage_label_with 1 input.

(** ** numpy helpers used by [largest_connected_component] *)

(** [np.bincount(x)]: occurrences of each value [0 .. max x]. *)
Definition bincount (x : list nat) : list nat :=
  match x with
  | [] => []
  | _ => map (fun v => count_occ Nat.eq_dec x v) (seq 0 (S (list_max x)))
  end.

(** [a[i] = v] on a one-dimensional array; [None] is numpy's IndexError. *)
Definition setitem {A} (a : list A) (i : nat) (v : A) : option (list A) :=
  if i <? length a then Some (firstn i a ++ v :: skipn (S i) a) else None.

(** [a.argmax()]: index of the first occurrence of the maximum. *)
Fixpoint argmax_from (best_i best : nat) (i : nat) (l : list nat) : nat :=
  match l with
  | [] => best_i
  | x :: rest => if best <? x then argmax_from i x (S i) rest
                 else argmax_from best_i best (S i) rest
  end.

Definition argmax (l : list nat) : option nat :=
  match l with
  | [] => None
  | x :: rest => Some (argmax_from 0 x 1 rest)
  end.

(** ** largest_connected_component *)

Inductive exception : Type :=
| ValueError_no_components
| ValueError
| IndexError
| TypeError.

(** Lines 44-47 of the source: the size table with the background count
    forced to zero, and the mask of the label that [argmax] selects. *)
Definition select_largest (labels : ndarray nat) : exception + ndarray bool :=
  let label_count := bincount (flat labels) in
  match setitem label_count 0 0 with
  | None => inl IndexError
  | Some label_count =>
      match argmax label_count with
      | None => inl ValueError
      | Some k => inr (eq_scalar labels k)
      end
  end.

(** The first test of the source (an image object or a path is refused
    with ValueError) is decided by the type of [volume]: only arrays are
    values of [ndarray A]. *)
Definition largest_connected_component {A} `{Dtype A} (volume : ndarray A)
  : exception + ndarray bool :=
  let (labels, label_nb) := ndimage_label volume in
  if label_nb =? 0 then inl ValueError_no_components
  else if label_nb =? 1 then inr (astype_bool volume)
  else select_largest labels.

(** ** numpy and scipy helpers used by [_peak_local_max] *)

Definition Qlt_bool (a b : Q) : bool := negb (Qle_bool b a).

(** Python's builtin [max(a, b)]: the first argument unless the second is
    greater. *)
Definition py_max (a b : Q) : Q := if Qlt_bool a b then b else a.

(** [np.max] of a flattened array; [None] is the ValueError numpy raises
    on an empty one. *)
Definition np_max (l : list Q) : option Q :=
  match l with
  | [] => None
  | x :: rest => Some (fold_left py_max rest x)
  end.

(** [np.zeros_like(image, dtype=np.bool)] *)
Definition zeros_like_bool {A} (image : ndarray A) : ndarray bool :=
  mk_ndarray (shape image) (map (fun _ => false) (flat image)).

(** Positions a filter of side [size] (origin 0) visits on one axis around
    the coordinate [x]: the offsets [-(size/2) .. size - size/2 - 1]. *)
Definition axis_window (size : nat) (x : nat) : list Z :=
  map (fun k => Z.of_nat x - Z.of_nat (size / 2) + Z.of_nat k)%Z (seq 0 size).

(** The window of a cell: every combination of the positions on the axes. *)
Fixpoint window (size : nat) (c : list nat) : list (list Z) :=
  match c with
  | [] => [[]]
  | x :: c' => flat_map (fun z => map (cons z) (window size c')) (axis_window size x)
  end.

(** Reading a position under [mode='constant']: the cell when the position
    is inside the array, [cval] outside. *)
Definition get_constant (image : ndarray Q) (cval : Q) (p : list Z) : Q :=
  if in_bounds p (shape image)
  then nth (ravel_multi_index (map Z.to_nat p) (shape image)) (flat image) cval
  else cval.

(** [ndimage.maximum_filter(image, size=size, mode='constant')], with the
    default [cval=0.0]. *)
Definition window_values (image : ndarray Q) (size : nat) (i : nat) : list Q :=
  map (get_constant image 0) (window size (unravel_index i (shape image))).

Definition maximum_filter (image : ndarray Q) (size : nat) : ndarray Q :=
  mk_ndarray (shape image)
    (map (fun i =>
            match np_max (window_values image size i) with
            | Some m => m
            | None => 0%Q
            end)
         (seq 0 (length (flat image)))).

(** [a == b], cell by cell. *)
Definition eq_array (a b : ndarray Q) : ndarray bool :=
  mk_ndarray (shape a) (map (fun xy => Qeq_bool (fst xy) (snd xy)) (combine (flat a) (flat b))).

(** The value [a *= mask] leaves in [a]: each cell times 1 or 0. *)
Definition imul_mask (a : ndarray Q) (mask : ndarray bool) : ndarray Q :=
  mk_ndarray (shape a)
    (map (fun xb => (fst xb * of_bool (snd xb))%Q) (combine (flat a) (flat mask))).

(** [a > t] *)
Definition gt_scalar (a : ndarray Q) (t : Q) : ndarray bool :=
  mk_ndarray (shape a) (map (fun x => Qlt_bool t x) (flat a)).

(** [np.argwhere(b)]: the coordinates of the true cells, in C order. *)
Definition argwhere (b : ndarray bool) : list (list nat) :=
  map (fun i => unravel_index i (shape b))
      (filter (fun i => nth i (flat b) false) (seq 0 (length (flat b)))).

(** [image.flat[np.ravel_multi_index(coordinates.transpose(), image.shape)]] *)
Definition take_flat (image : ndarray Q) (coordinates : list (list nat)) : list Q :=
  map (fun c => nth (ravel_multi_index c (shape image)) (flat image) 0%Q) coordinates.

(** [np.argsort(keys)]: the indices that sort [keys] in increasing order.
    numpy's default sort (quicksort) is not stable: the order it leaves
    equal keys in is not specified and changes with the length of the
    array and the build.  [tie_rank keys i] stands for that order: of two
    equal keys the one of lower rank comes first (and of two of equal
    rank, the one of lower index).  Every order a sort can return is
    obtained by ranking the indices as that sort returns them. *)
Class TieOrder : Type := tie_rank : list Q -> nat -> nat.

Definition sorts_before {ties : TieOrder} (keys : list Q) (i j : nat) : bool :=
  Qlt_bool (nth i keys 0%Q) (nth j keys 0%Q)
  || (Qeq_bool (nth i keys 0%Q) (nth j keys 0%Q)
      && (tie_rank keys i <=? tie_rank keys j)).

Fixpoint insert_by (before : nat -> nat -> bool) (i : nat) (l : list nat) : list nat :=
  match l with
  | [] => [i]
  | j :: rest => if before i j then i :: l else j :: insert_by before i rest
  end.

Definition argsort {ties : TieOrder} (keys : list Q) : list nat :=
  fold_right (insert_by (sorts_before keys)) [] (seq 0 (length keys)).

(** [coordinates[idx]] *)
Definition take_rows (coordinates : list (list nat)) (idx : list nat) : list (list nat) :=
  map (fun i => nth i coordinates []) idx.

(** [out[tuple(coordinates.T)] = True]: every listed cell is set; an index
    outside the array is numpy's IndexError. *)
Fixpoint setitem_coords (out : list bool) (sh : list nat) (coordinates : list (list nat))
  : option (list bool) :=
  match coordinates with
  | [] => Some out
  | c :: rest =>
      match setitem out (ravel_multi_index c sh) true with
      | Some out' => setitem_coords out' sh rest
      | None => None
      end
  end.

(** [num_peaks] is an integer or [np.inf] ([None]). *)
Definition exceeds (count : nat) (num_peaks : option nat) : bool :=
  match num_peaks with
  | Some k => k <? count
  | None => false
  end.

Definition take_first (num_peaks : option nat) (l : list (list nat)) : list (list nat) :=
  match num_peaks with
  | Some k => firstn k l
  | None => l
  end.

(** ** binary64

    The cells and the thresholds are floats ([image : ndarray of floats],
    [threshold_abs], [threshold_rel : float]): binary64 numbers.  A finite
    one is a rational [m * 2^e] with [|m| < 2^53] and [-1074 <= e <= 971].
    Comparisons, maxima and the products with 0 or 1 of line 148 are
    exact on them; the product of line 151 is the exact product rounded
    to the nearest binary64 number, ties to the even mantissa. *)

(** [2^k], and 1 for a negative [k]. *)
Definition pow2 (k : Z) : Z := (2 ^ Z.max 0 k)%Z.

(** The largest [k] with [2^k <= n / d], for positive [n] and [d]. *)
Definition floor_log2 (n d : Z) : Z :=
  let k := (Z.log2 n - Z.log2 d)%Z in
  if (d * pow2 k <=? n * pow2 (- k))%Z then k else (k - 1)%Z.

(** The integer nearest to [n / d], the even one of two that are
    equally near. *)
Definition round_half_even (n d : Z) : Z :=
  let q := (n / d)%Z in
  match (2 * (n mod d) ?= d)%Z with
  | Lt => q
  | Gt => (q + 1)%Z
  | Eq => if Z.even q then q else (q + 1)%Z
  end.

(** What stands for [inf]: the first power of two beyond every finite
    binary64 number. *)
Definition infinity : Q := inject_Z (2 ^ 1024).

(** Rounding of [n / d > 0]: the last bit kept has the exponent [e], 52
    below the leading bit and never below -1074 (subnormal numbers); a
    result beyond the largest finite number is [inf]. *)
Definition round_positive (n d : Z) : Q :=
  let e := Z.max (floor_log2 n d - 52) (-1074) in
  let m := round_half_even (n * pow2 (- e)) (d * pow2 e) in
  let r := Qmake (m * pow2 e) (Z.to_pos (pow2 (- e))) in
  if Qle_bool infinity r then infinity else r.

Definition round_double (x : Q) : Q :=
  let x := Qred x in
  match Qnum x with
  | Z0 => 0%Q
  | Zpos n => round_positive (Zpos n) (Zpos (Qden x))
  | Zneg n => (- round_positive (Zpos n) (Zpos (Qden x)))%Q
  end.

(** The rationals a float can hold. *)
Definition is_double (x : Q) : bool := Qeq_bool (round_double x) x.

(** The float a decimal literal such as [0.1] denotes. *)
Definition float_literal (x : Q) : Q := round_double x.

(** [x * y] on floats: the exact product, rounded.  The operands the
    code has are binary64 numbers; a rational that is none ([1 # 10],
    say, where the float [0.1] is [float_literal (1 # 10)]) never reaches
    the code, and the product with one is left as it is. *)
Definition float_mul (x y : Q) : Q :=
  if is_double x && is_double y then round_double (x * y) else (x * y)%Q.

(** ** _peak_local_max *)

(** Lines 144-148: the grid with every cell that is not the maximum of its
    window set to 0. *)
Definition candidates (image : ndarray Q) (min_distance : nat) : ndarray bool :=
  let size := 2 * min_distance + 1 in
  let image_max := maximum_filter image size in
  eq_array image image_max.

Definition masked_image (image : ndarray Q) (min_distance : nat) : ndarray Q :=
  imul_mask image (candidates image min_distance).

(** Line 151. *)
Definition peak_threshold (masked : ndarray Q) (threshold_abs threshold_rel : Q)
  : option Q :=
  match np_max (flat masked) with
  | Some m => Some (py_max (float_mul m threshold_rel) threshold_abs)
  | None => None
  end.

(** Lines 156-159: the rows kept out of [coordinates]. *)
Definition truncate {ties : TieOrder} (image : ndarray Q) (coordinates : list (list nat))
  (num_peaks : option nat) : list (list nat) :=
  if exceeds (length coordinates) num_peaks then
    let intensities := take_flat image coordinates in
    let idx_maxsort := rev (argsort intensities) in
    take_first num_peaks (take_rows coordinates idx_maxsort)
  else coordinates.

Definition _peak_local_max {ties : TieOrder} (image : ndarray Q) (min_distance : nat)
  (threshold_abs threshold_rel : Q) (num_peaks : option nat)
  : exception + ndarray bool :=
  let out := zeros_like_bool image in
  match nth_error (flat image) 0 with
  | None => inl IndexError
  | Some first =>
      if forallb (fun x => Qeq_bool x first) (flat image) then inr out
      else
        let image := masked_image image min_distance in
        match peak_threshold image threshold_abs threshold_rel with
        | None => inl ValueError
        | Some peak_threshold =>
            let coordinates := argwhere (gt_scalar image peak_threshold) in
            let coordinates := truncate image coordinates num_peaks in
            match setitem_coords (flat out) (shape out) coordinates with
            | Some cells => inr (mk_ndarray (shape out) cells)
            | None => inl IndexError
            end
        end
  end.

(** ** get_border_data *)

(** How Python resolves a bound of a slice (step 1) on an axis of length
    [d]: a negative bound counts from the end, and the result is clipped
    to [0 .. d]. *)
Definition slice_bound (b : Z) (d : nat) : nat :=
  if (b <? 0)%Z then Z.to_nat (Z.max 0 (b + Z.of_nat d)) else Nat.min (Z.to_nat b) d.

(** The coordinate of the cell with flat index [i] on an axis. *)
Definition coordinate (sh : list nat) (axis i : nat) : nat :=
  nth axis (unravel_index i sh) 0.

(** [data[..., start:stop, ...].ravel()] with the slice on [axis] and full
    slices elsewhere: the cells whose coordinate on the axis lies in
    [start .. stop - 1], in C order. *)
Definition take_slab {A} (data : ndarray A) (axis start stop : nat) : list A :=
  map snd
      (filter (fun iv => (start <=? coordinate (shape data) axis (fst iv))
                         && (coordinate (shape data) axis (fst iv) <? stop))
              (combine (seq 0 (length (flat data))) (flat data))).

(** The six slices take three subscripts: an array of fewer dimensions is
    numpy's IndexError. *)
Definition get_border_data {A} (data : ndarray A) (border_size : Z)
  : exception + list A :=
  if length (shape data) <? 3 then inl IndexError
  else
    let d := fun axis => nth axis (shape data) 0 in
    inr (take_slab data 0 0 (slice_bound border_size (d 0))
         ++ take_slab data 0 (slice_bound (- border_size) (d 0)) (d 0)
         ++ take_slab data 1 0 (slice_bound border_size (d 1))
         ++ take_slab data 1 (slice_bound (- border_size) (d 1)) (d 1)
         ++ take_slab data 2 0 (slice_bound border_size (d 2))
         ++ take_slab data 2 (slice_bound (- border_size) (d 2)) (d 2)).

(** ** Arrays as objects

    numpy arrays are mutable objects reached through references.  To speak
    about what a call does to the arrays of its caller, the two functions
    are given a second time over a heap of arrays: [copy], [zeros_like]
    and the results of numpy operations allocate, [image *= mask],
    [label_count[0] = 0] and [out[nd_indices] = True] overwrite in place. *)

Inductive object : Type :=
| FloatArray (a : ndarray Q)
| BoolArray (a : ndarray bool)
| IntArray (a : ndarray nat).

Definition ref : Type := nat.
Definition heap : Type := list object.

(** Computations that read and write the heap and may raise. *)
Definition M (X : Type) : Type := heap -> heap * (exception + X).

Definition ret {X} (x : X) : M X := fun h => (h, inr x).

Definition raise {X} (e : exception) : M X := fun h => (h, inl e).

Definition bind {X Y} (c : M X) (k : X -> M Y) : M Y :=
  fun h => match c h with
           | (h', inr x) => k x h'
           | (h', inl e) => (h', inl e)
           end.

Notation "x <- c ;; k" := (bind c (fun x => k))
  (at level 61, c at next level, right associativity).
Notation "c ;; k" := (bind c (fun _ => k))
  (at level 61, right associativity).

Definition alloc (o : object) : M ref := fun h => (h ++ [o], inr (length h)).

Definition read (r : ref) : M object :=
  fun h => match nth_error h r with
           | Some o => (h, inr o)
           | None => (h, inl TypeError)
           end.

Definition write (r : ref) (o : object) : M unit :=
  fun h => match setitem h r o with
           | Some h' => (h', inr tt)
           | None => (h, inl TypeError)
           end.

Definition read_float (r : ref) : M (ndarray Q) :=
  o <- read r ;;
  match o with FloatArray a => ret a | _ => raise TypeError end.

Definition read_bool (r : ref) : M (ndarray bool) :=
  o <- read r ;;
  match o with BoolArray a => ret a | _ => raise TypeError end.

Definition read_int (r : ref) : M (ndarray nat) :=
  o <- read r ;;
  match o with IntArray a => ret a | _ => raise TypeError end.

Definition label_object (o : object) : ndarray nat * nat :=
  match o with
  | FloatArray a => ndimage_label a
  | BoolArray a => ndimage_label a
  | IntArray a => ndimage_label a
  end.

Definition astype_bool_object (o : object) : ndarray bool :=
  match o with
  | FloatArray a => astype_bool a
  | BoolArray a => astype_bool a
  | IntArray a => astype_bool a
  end.

(** [largest_connected_component] on the array an object holds. *)
Definition largest_connected_component_object (o : object) : exception + ndarray bool :=
  match o with
  | FloatArray a => largest_connected_component a
  | BoolArray a => largest_connected_component a
  | IntArray a => largest_connected_component a
  end.

(** [largest_connected_component] on a reference.  [np.asarray] hands
    back the array it is given, so [volume] stays the caller's object. *)
Definition largest_connected_component_ref (volume : ref) : M ref :=
  v <- read volume ;;
  labels <- alloc (IntArray (fst (label_object v))) ;;
  let label_nb := snd (label_object v) in
  if label_nb =? 0 then raise ValueError_no_components
  else if label_nb =? 1 then alloc (BoolArray (astype_bool_object v))
  else
    l <- read_int labels ;;
    label_count <- alloc (IntArray (mk_ndarray [length (bincount (flat l))]
                                               (bincount (flat l)))) ;;
    c <- read_int label_count ;;
    match setitem (flat c) 0 0 with
    | None => raise IndexError
    | Some cells =>
        write label_count (IntArray (mk_ndarray (shape c) cells)) ;;
        c <- read_int label_count ;;
        match argmax (flat c) with
        | None => raise ValueError
        | Some k => alloc (BoolArray (eq_scalar l k))
        end
    end.

(** [_peak_local_max] on a reference.  After [image = image.copy()] the
    name [image] is bound to the fresh array. *)
Definition _peak_local_max_ref {ties : TieOrder} (image : ref) (min_distance : nat)
  (threshold_abs threshold_rel : Q) (num_peaks : option nat) : M ref :=
  a <- read_float image ;;
  out <- alloc (BoolArray (zeros_like_bool a)) ;;
  match nth_error (flat a) 0 with
  | None => raise IndexError
  | Some first =>
      if forallb (fun x => Qeq_bool x first) (flat a) then ret out
      else
        image <- alloc (FloatArray a) ;;
        a <- read_float image ;;
        let size := 2 * min_distance + 1 in
        let image_max := maximum_filter a size in
        let mask := eq_array a image_max in
        write image (FloatArray (imul_mask a mask)) ;;
        a <- read_float image ;;
        match np_max (flat a) with
        | None => raise ValueError
        | Some m =>
            let peak_threshold := py_max (float_mul m threshold_rel) threshold_abs in
            let coordinates := argwhere (gt_scalar a peak_threshold) in
            let coordinates := truncate a coordinates num_peaks in
            o <- read_bool out ;;
            match setitem_coords (flat o) (shape o) coordinates with
            | None => raise IndexError
            | Some cells =>
                write out (BoolArray (mk_ndarray (shape o) cells)) ;;
                ret out
            end
        end
  end.

(** The contract used for the heap: started in a heap that holds at least
    the [n0] first objects, the computation leaves those objects as they
    are, only adds objects, and returns a value satisfying [post]. *)
Definition frame {X} (n0 : nat) (c : M X) (post : X -> Prop) : Prop :=
  forall h, n0 <= length h ->
    length h <= length (fst (c h)) /\
    (forall r, r < n0 -> nth_error (fst (c h)) r = nth_error h r) /\
    (forall x, snd (c h) = inr x -> post x).

(** ** largest_connected_component_img

    The image layer ([check_niimg_3d], [get_affine], [_safe_get_data],
    [new_img_like]) lives in other modules: images, what a caller may pass
    for one (an image object or a path) and the four helpers are left
    open, each helper free to raise. *)

Definition bind_exception {X Y} (c : exception + X) (k : X -> exception + Y)
  : exception + Y :=
  match c with
  | inl e => inl e
  | inr x => k x
  end.

Section ImageWrapper.
Variable niimg_like : Type.
Variable niimg : Type.
Variable affine_matrix : Type.
Variable check_niimg_3d : niimg_like -> exception + niimg.
Variable get_affine : niimg -> exception + affine_matrix.
Variable _safe_get_data : niimg -> exception + object.
Variable new_img_like : niimg -> ndarray bool -> affine_matrix -> exception + niimg.

(** What [imgs] can be: one image-like value, a string included, or an
    iterable of them. *)
Inductive imgs_argument : Type :=
| one_img (img : niimg_like)
| iterable (imgs : list niimg_like).

Inductive imgs_result : Type :=
| one_result (img : niimg)
| list_result (imgs : list niimg).

(** The body of the loop, lines 72-76. *)
Definition component_of_img (img : niimg_like) : exception + niimg :=
  bind_exception (check_niimg_3d img) (fun img =>
  bind_exception (get_affine img) (fun affine =>
  bind_exception (_safe_get_data img) (fun data =>
  bind_exception (largest_connected_component_object data) (fun largest_component =>
  new_img_like img largest_component affine)))).

(** The loop of lines 70-76 with its accumulator [ret]. *)
Fixpoint component_loop (imgs : list niimg_like) (ret : list niimg)
  : exception + list niimg :=
  match imgs with
  | [] => inr ret
  | img :: rest =>
      bind_exception (component_of_img img) (fun new_img =>
      component_loop rest (ret ++ [new_img]))
  end.

Definition largest_connected_component_img (imgs : imgs_argument)
  : exception + imgs_result :=
  let single_img := match imgs with one_img _ => true | iterable _ => false end in
  let imgs := match imgs with one_img img => [img] | iterable imgs => imgs end in
  bind_exception (component_loop imgs []) (fun ret =>
  if single_img
  then match ret with
       | r :: _ => inr (one_result r)
       | [] => inl IndexError
       end
  else inr (list_result ret)).
End ImageWrapper.

(** ** Vocabulary of the statements *)

(** The cells [ndimage.label] treats as features. *)
Definition features {A} `{Dtype A} (a : ndarray A) : list bool := map nonzero (flat a).

(** Connection of two cells of [a] through the default structure of
    [ndimage.label] (neighbours share a face). *)
Definition face_connected {A} `{Dtype A} (a : ndarray A) : nat -> nat -> Prop :=
  connected (neighbours 1 (shape a)) (features a).

(** Neighbours as the specification words them: the coordinates of the
    two cells differ by at most one on every axis. *)
Definition within_one (c d : list nat) : bool :=
  (length c =? length d)
  && forallb (fun xy => (fst xy - snd xy <=? 1) && (snd xy - fst xy <=? 1)) (combine c d).

Definition spec_neighbours (sh : list nat) (i j : nat) : bool :=
  within_one (unravel_index i sh) (unravel_index j sh).

Definition full_connected {A} `{Dtype A} (a : ndarray A) : nat -> nat -> Prop :=
  connected (spec_neighbours (shape a)) (features a).

(** Neighbours through a face: the coordinates differ by exactly one on
    exactly one axis. *)
Fixpoint face_adjacent (c d : list nat) : Prop :=
  match c, d with
  | x :: c', y :: d' =>
      ((x = S y \/ y = S x) /\ c' = d') \/ (x = y /\ face_adjacent c' d')
  | _, _ => False
  end.


(** The cells of the masked grid above the threshold, in scan order, as
    flat indices ([np.argwhere] lists their coordinates). *)
Definition survivors (masked : ndarray Q) (thr : Q) : list nat :=
  filter (fun i => nth i (flat (gt_scalar masked thr)) false)
         (seq 0 (length (flat (gt_scalar masked thr)))).

(** All the survivors by decreasing intensity, as lines 157-159 order them. *)
Definition ranked {ties : TieOrder} (masked : ndarray Q) (thr : Q) : list nat :=
  map (fun j => nth j (survivors masked thr) 0)
      (rev (argsort (map (fun i => nth i (flat masked) 0%Q) (survivors masked thr)))).

(** The cells whose coordinates [truncate] keeps. *)
Definition kept_cells {ties : TieOrder} (masked : ndarray Q) (thr : Q) (num_peaks : option nat)
  : list nat :=
  match num_peaks with
  | Some k => if k <? length (survivors masked thr)
              then firstn k (ranked masked thr)
              else survivors masked thr
  | None => survivors masked thr
  end.

(** Every cell of the grid holds the same value. *)
Definition constant_grid (image : ndarray Q) : Prop :=
  forall i j, i < length (flat image) -> j < length (flat image) ->
              (nth i (flat image) 0 == nth j (flat image) 0)%Q.

(** ** Grids used as examples *)

(** The 2x2 grid with only its diagonal set. *)
Definition diagonal_grid : ndarray bool := mk_ndarray [2; 2] [true; false; false; true].

Definition bar_grid : ndarray bool := mk_ndarray [1; 3] [true; true; true].

(** Three regions of one cell each. *)
Definition tied_grid : ndarray nat := mk_ndarray [5] [3; 0; 7; 0; 1].

(** The line [0,0,5,0,0,0,0,3,0,0] of the specification's tests. *)
Definition line_grid : ndarray Q :=
  mk_ndarray [10] (map inject_Z [0; 0; 5; 0; 0; 0; 0; 3; 0; 0]%Z).

Definition line_peaks : ndarray bool :=
  mk_ndarray [10] [false; false; true; false; false; false; false; true; false; false].

Definition line_top_peak : ndarray bool :=
  mk_ndarray [10] [false; false; true; false; false; false; false; false; false; false].

(** A grid with a zero dimension: no cell at all. *)
Definition empty_grid : ndarray Q := mk_ndarray [0] [].

Definition spike_grid : ndarray Q := mk_ndarray [3] (map inject_Z [0; 5; 0]%Z).

Definition spike_peak : ndarray bool := mk_ndarray [3] [false; true; false].

Definition constant_example : ndarray Q := mk_ndarray [2; 2] (map inject_Z [7; 7; 7; 7]%Z).

Definition first_region : ndarray bool :=
  mk_ndarray [5] [true; false; false; false; false].

(** The line after lines 144-148 with [min_distance = 1]. *)
Definition line_masked : ndarray Q := masked_image line_grid 1.

(** A 2x2x3 block numbered in C order. *)
Definition block_grid : ndarray nat := mk_ndarray [2; 2; 3] (seq 0 12).

(** A plateau: two neighbouring cells hold the maximum. *)
Definition plateau_grid : ndarray Q := mk_ndarray [4] (map inject_Z [0; 5; 5; 0]%Z).

Definition plateau_peaks : ndarray bool := mk_ndarray [4] [false; true; true; false].

(** The border of width 1 of [block_grid]: every cell, once per face it
    lies on. *)
Definition block_border : list nat :=
  seq 0 6 ++ seq 6 6 ++ [0; 1; 2; 6; 7; 8] ++ [3; 4; 5; 9; 10; 11]
  ++ [0; 3; 6; 9] ++ [2; 5; 8; 11].

(** A line without a non-zero cell. *)
Definition zero_line : ndarray Q := mk_ndarray [3] (map inject_Z [0; 0; 0]%Z).

(** Images held in memory as their array, with no affine to speak of. *)
Definition array_check_niimg_3d (img : ndarray Q) : exception + ndarray Q := inr img.

Definition array_get_affine (img : ndarray Q) : exception + unit := inr tt.

Definition array_safe_get_data (img : ndarray Q) : exception + object := inr (FloatArray img).

Definition array_new_img_like (img : ndarray Q) (data : ndarray bool) (affine : unit)
  : exception + ndarray Q :=
  inr (astype_of_bool data).

(** A sort that keeps equal intensities in their order, and one that
    reverses them. *)
Definition index_order : TieOrder := fun _ i => i.

Definition reverse_order : TieOrder := fun keys i => length keys - i.

(** [threshold_rel = 0.1], the default. *)
Definition default_rel : Q := float_literal (1 # 10).

(** The line [0, 0.30000000000000004, 0, 0, 3, 0]: in floats [3 * 0.1] is
    the value of its cell 1. *)
Definition rounding_grid : ndarray Q :=
  mk_ndarray [6] [0; float_literal (30000000000000004 # 100000000000000000); 0; 0; 3; 0]%Q.

Definition rounding_peak : ndarray bool :=
  mk_ndarray [6] [false; false; false; false; true; false].

(** The line [0, 5e-324]: the smallest positive float next to 0. *)
Definition tiny_grid : ndarray Q := mk_ndarray [2] [0; 1 # (2 ^ 1074)]%Q.

(** A negative candidate between two peaks. *)
Definition valley_grid : ndarray Q := mk_ndarray [5] (map inject_Z [5; -2; -1; -2; 5]%Z).

(** Three equal peaks. *)
Definition comb_grid : ndarray Q := mk_ndarray [5] (map inject_Z [4; 0; 4; 0; 4]%Z).

(** The rational a binary64 number of the kernel denotes, [inf] as it is
    held here; nothing for NaN. *)
Definition Q_of_float (f : float) : option Q :=
  match Prim2SF f with
  | S754_zero _ => Some 0%Q
  | S754_infinity s => Some (if s then (- infinity)%Q else infinity)
  | S754_nan => None
  | S754_finite s m e =>
      let v := if (0 <=? e)%Z then inject_Z (Zpos m * 2 ^ e)
               else Qmake (Zpos m) (Z.to_pos (2 ^ (- e))) in
      Some (if s then (- v)%Q else v)
  end.

(** [float_mul] against the product of the kernel's floats on a pair. *)
Definition agrees_on (ab : float * float) : bool :=
  match Q_of_float (fst ab), Q_of_float (snd ab), Q_of_float (fst ab * snd ab)%float with
  | Some x, Some y, Some z => is_double x && is_double y && Qeq_bool (float_mul x y) z
  | _, _, _ => false
  end.

Definition sample_products : list (float * float) :=
  [(3, 0x1.999999999999ap-4); (0x1.999999999999ap-4, 0x1.999999999999ap-3);
   (0x1p-1074, 0x1.8p-1); (0x1p-1074, 0x1p-1); (0x1.8p-1073, 0x1p-1);
   (0x1p1000, 0x1p100); (0x1.fffffffffffffp1023, 0x1.0000000000001p0);
   (0x1.fffffffffffffp1023, 0x1.fffffffffffffp-1); (-0x1.3333333333333p-2, 7);
   (0x1.921fb54442d18p1, 0x1.5bf0a8b145769p1); (0x1p-1022, 0x1.fffffffffffffp-1);
   (0x1.0000000000001p-1000, 0x1.0000000000001p-30); (-0x1.edcba98765432p-600, 0x1.23456789abcdep-450);
   (0x1.fffffffffffffp511, 0x1.fffffffffffffp511); (0x1.6a09e667f3bcdp0, 0x1.6a09e667f3bcdp0);
   (1, 0x1.fffffffffffffp-1); (0, -0x1.8p3); (0x1.0000000000001p0, 0x1.0000000000001p0)]%float.

(** ** Vocabulary of the further properties *)

(** Two cells at most [r] apart on every axis. *)
Definition near (r : nat) (c d : list nat) : Prop :=
  Forall2 (fun x y => x <= y + r /\ y <= x + r) c d.

(** The value of the cell with flat index [i]. *)
Definition cell (image : ndarray Q) (i : nat) : Q := nth i (flat image) 0%Q.

(** * Properties *)

(** ** Lists of marks *)

Lemma nth_map_seq {A} (f : nat -> A) (n j : nat) (d : A) :
  nth j (map f (seq 0 n)) d = if j <? n then f j else d.
Proof.
  destruct (Nat.ltb_spec j n) as [Hlt|Hge].
  - rewrite (nth_indep _ d (f 0)) by (rewrite length_map, length_seq; exact Hlt).
    rewrite map_nth, seq_nth by exact Hlt. reflexivity.
  - apply nth_overflow. rewrite length_map, length_seq. exact Hge.
Qed.

Lemma nth_true_lt (s : list bool) (i : nat) : nth i s false = true -> i < length s.
Proof.
  intros H. destruct (Nat.lt_ge_cases i (length s)) as [Hlt|Hge]; [exact Hlt|].
  rewrite nth_overflow in H by exact Hge. discriminate.
Qed.

Lemma nth_nonzero_lt (l : list nat) (i : nat) : nth i l 0 <> 0 -> i < length l.
Proof.
  intros H. destruct (Nat.lt_ge_cases i (length l)) as [Hlt|Hge]; [exact Hlt|].
  rewrite nth_overflow in H by exact Hge. congruence.
Qed.

Lemma count_true_le_length (s : list bool) : count_true s <= length s.
Proof. apply count_occ_bound. Qed.

Lemma count_true_marked (s : list bool) (i : nat) :
  marked s i = true -> 1 <= count_true s.
Proof.
  unfold marked, count_true. intros H.
  assert (Hin : In true s).
  { rewrite <- H. apply nth_In. apply nth_true_lt. exact H. }
  apply (count_occ_In bool_dec) in Hin. lia.
Qed.

(** A set of marks included in another of the same length has at most as
    many marks, and as many only when the two are equal. *)
Lemma count_true_mono (s t : list bool) :
  length s = length t ->
  (forall i, marked s i = true -> marked t i = true) ->
  count_true s <= count_true t /\ (count_true s = count_true t -> s = t).
Proof.
  unfold marked, count_true. revert t.
  induction s as [|a s IH]; intros [|b t] Hlen Hsub; try discriminate.
  - split; [lia | reflexivity].
  - simpl in Hlen. injection Hlen as Hlen.
    destruct (IH t Hlen (fun i => Hsub (S i))) as [Hle Heq].
    specialize (Hsub 0). simpl in Hsub.
    destruct a, b; simpl.
    + split; [lia|]. intros E. f_equal. apply Heq. lia.
    + discriminate (Hsub eq_refl).
    + split; [lia|]. intros E. exfalso.
      pose proof (count_occ_bound bool_dec true t). lia.
    + split; [lia|]. intros E. f_equal. apply Heq. lia.
Qed.

(** ** Flood fill computes the connected region of its seed *)

Section FloodFacts.
Variable adj : nat -> nat -> bool.
Variable feat : list bool.

Local Abbreviation n := (length feat).
Local Abbreviation connected := (connected adj feat).
Local Abbreviation dilate := (grow adj feat).
Local Abbreviation fill := (flood adj feat).

Lemma is_feat_lt i : is_feat feat i = true -> i < n.
Proof. apply nth_true_lt. Qed.

Lemma grow_length s : length (dilate s) = n.
Proof. unfold grow. rewrite length_map, length_seq. reflexivity. Qed.

Lemma single_length seed : length (single feat seed) = n.
Proof. unfold single. rewrite length_map, length_seq. reflexivity. Qed.

Lemma marked_single seed j :
  marked (single feat seed) j = true <-> j = seed /\ seed < n.
Proof.
  unfold marked, single. rewrite nth_map_seq.
  destruct (Nat.ltb_spec j n); destruct (Nat.eqb_spec j seed); split;
    intros; try discriminate; try lia; intuition (subst; auto; lia).
Qed.

Lemma marked_grow s j :
  marked (dilate s) j = true <->
  j < n /\ (marked s j = true \/
            (is_feat feat j = true /\ exists i, i < n /\ marked s i = true /\ adj i j = true)).
Proof.
  unfold marked at 1, grow. rewrite nth_map_seq.
  destruct (Nat.ltb_spec j n) as [Hlt|Hge].
  - rewrite orb_true_iff, andb_true_iff, existsb_exists. split.
    + intros [H|[Hf [i [Hin Hi]]]]; split; auto.
      right. split; auto. apply in_seq in Hin. apply andb_true_iff in Hi.
      exists i. intuition lia.
    + intros [_ [H|[Hf [i [Hi [Hm Ha]]]]]]; auto.
      right. split; auto. exists i. split; [apply in_seq; lia|].
      rewrite Hm, Ha. reflexivity.
  - split; [discriminate | intros [H _]; lia].
Qed.

Lemma grow_incl s j : length s = n -> marked s j = true -> marked (dilate s) j = true.
Proof.
  intros Hlen H. apply marked_grow. split; [|left; exact H].
  rewrite <- Hlen. apply nth_true_lt. exact H.
Qed.

Lemma iter_grow_length k seed : length (Nat.iter k dilate (single feat seed)) = n.
Proof. destruct k; simpl; [apply single_length | apply grow_length]. Qed.

Lemma iter_grow_incl k seed j :
  marked (single feat seed) j = true ->
  marked (Nat.iter k dilate (single feat seed)) j = true.
Proof.
  intros H. induction k as [|k IH]; simpl; [exact H|].
  apply grow_incl; [apply iter_grow_length | exact IH].
Qed.

(** Each round either adds a cell or has reached the fixed point. *)
Lemma iter_grow_progress k seed :
  seed < n ->
  let s := Nat.iter k dilate (single feat seed) in
  dilate s = s \/ k + 1 <= count_true s.
Proof.
  intros Hseed. induction k as [|k IH]; simpl.
  - right. apply count_true_marked with (i := seed). apply marked_single. auto.
  - simpl in IH. set (s := Nat.iter k dilate (single feat seed)) in *.
    destruct IH as [Hfix|Hcnt].
    + left. rewrite Hfix. exact Hfix.
    + destruct (count_true_mono s (dilate s)) as [Hle Heq].
      * unfold s. rewrite iter_grow_length, grow_length. reflexivity.
      * intros i. apply grow_incl. unfold s. apply iter_grow_length.
      * destruct (Nat.eq_dec (count_true s) (count_true (dilate s))) as [E|E].
        -- left. rewrite <- (Heq E). symmetry. apply Heq. exact E.
        -- right. lia.
Qed.

Lemma flood_closed seed : seed < n -> dilate (fill seed) = fill seed.
Proof.
  intros Hseed. destruct (iter_grow_progress n Hseed) as [H|H]; [exact H|].
  exfalso. pose proof (count_true_le_length (Nat.iter n dilate (single feat seed))) as Hb.
  rewrite iter_grow_length in Hb. lia.
Qed.

Lemma connected_feat i j : connected i j -> is_feat feat i = true /\ is_feat feat j = true.
Proof. induction 1; intuition. Qed.

Lemma connected_trans i j k : connected i j -> connected j k -> connected i k.
Proof.
  intros Hij Hjk. induction Hjk as [j Hj | j k l Hjk IH Ha Hl]; [exact Hij|].
  apply connected_step with (j := k); auto.
Qed.

Lemma iter_grow_sound k seed j :
  is_feat feat seed = true ->
  marked (Nat.iter k dilate (single feat seed)) j = true -> connected seed j.
Proof.
  intros Hseed. revert j. induction k as [|k IH]; simpl; intros j H.
  - apply marked_single in H. destruct H as [-> _]. apply connected_refl. exact Hseed.
  - apply marked_grow in H. destruct H as [_ [H|[Hf [i [_ [Hi Ha]]]]]].
    + apply IH. exact H.
    + apply connected_step with (j := i); auto.
Qed.

Lemma flood_complete seed j : connected seed j -> marked (fill seed) j = true.
Proof.
  induction 1 as [i Hi | i j k Hij IH Ha Hk].
  - apply iter_grow_incl. apply marked_single. split; [reflexivity | apply is_feat_lt; exact Hi].
  - rewrite <- flood_closed.
    2:{ apply is_feat_lt. apply (connected_feat Hij). }
    apply marked_grow. split; [apply is_feat_lt; exact Hk|].
    right. split; [exact Hk|]. exists j. split; [|split; assumption].
    apply is_feat_lt. apply (connected_feat Hij).
Qed.

Theorem flood_spec seed j :
  is_feat feat seed = true ->
  (marked (fill seed) j = true <-> connected seed j).
Proof.
  intros Hseed. split; [apply iter_grow_sound; exact Hseed | apply flood_complete].
Qed.

Hypothesis adj_sym : forall i j, adj i j = adj j i.

Lemma connected_sym i j : connected i j -> connected j i.
Proof.
  induction 1 as [i Hi | i j k Hij IH Ha Hk].
  - apply connected_refl. exact Hi.
  - apply connected_trans with (j := j); [|exact IH].
    apply connected_step with (j := k).
    + apply connected_refl. exact Hk.
    + rewrite adj_sym. exact Ha.
    + apply (connected_feat Hij).
Qed.
End FloodFacts.

(** ** The raster scan keeps its invariant *)

Section ScanFacts.
Variable adj : nat -> nat -> bool.
Variable feat : list bool.
Hypothesis adj_sym : forall i j, adj i j = adj j i.

Local Abbreviation n := (length feat).
Local Abbreviation connected := (connected adj feat).
Local Abbreviation fill := (flood adj feat).
Local Abbreviation scan_inv := (scan_inv adj feat).

Lemma flood_length seed : length (fill seed) = n.
Proof. unfold flood. apply iter_grow_length. Qed.

Lemma scan_inv_init : scan_inv 0 (repeat 0 n) 0.
Proof.
  assert (Hz : forall j, nth j (repeat 0 n) 0 = 0) by (intros j; apply nth_repeat).
  constructor.
  - apply repeat_length.
  - intros j. rewrite Hz. lia.
  - intros j. rewrite Hz. congruence.
  - intros j Hj. lia.
  - intros j k. rewrite Hz. congruence.
  - intros j k. rewrite Hz. congruence.
  - intros l Hl. lia.
Qed.

Lemma scan_inv_skip i labels nb :
  scan_inv i labels nb ->
  is_feat feat i && (nth i labels 0 =? 0) = false ->
  scan_inv (S i) labels nb.
Proof.
  intros [Hlen Hb Hf Hd Hc Hs Hfst] Hskip. constructor; auto.
  - intros j Hj Hfj. destruct (Nat.eq_dec j i) as [->|Hne].
    + rewrite Hfj in Hskip. simpl in Hskip. apply Nat.eqb_neq. exact Hskip.
    + apply Hd; [lia | exact Hfj].
  - intros l Hl. destruct (Hfst l Hl) as [r [Hr H]]. exists r. split; [lia | exact H].
Qed.

Lemma nth_paint region l labels j :
  length region = n -> length labels = n ->
  nth j (paint feat region l labels) 0 = if marked region j then l else nth j labels 0.
Proof.
  intros Hr Hl. unfold paint. rewrite nth_map_seq.
  destruct (Nat.ltb_spec j n) as [Hlt|Hge]; [reflexivity|].
  unfold marked. rewrite !nth_overflow by lia. reflexivity.
Qed.

Lemma scan_inv_paint i labels nb :
  scan_inv i labels nb ->
  is_feat feat i = true -> nth i labels 0 = 0 ->
  scan_inv (S i) (paint feat (fill i) (S nb) labels) (S nb).
Proof.
  intros [Hlen Hb Hf Hd Hc Hs Hfst] Hi Hzero.
  pose proof (fun j => nth_paint (fill i) (S nb) labels j (flood_length i) Hlen) as Hp.
  pose proof (fun j => flood_spec adj feat i j Hi) as Hfl.
  assert (Hdisj : forall j, connected i j -> nth j labels 0 = 0).
  { intros j Hij. destruct (Nat.eq_dec (nth j labels 0) 0) as [E|E]; [exact E|].
    exfalso. apply connected_sym in Hij; [|exact adj_sym].
    pose proof (Hc j i E Hij). congruence. }
  assert (Hafter : forall j, connected i j -> i <= j).
  { intros j Hij. destruct (Nat.le_gt_cases i j) as [H|H]; [exact H|].
    exfalso. apply (Hd j H); [apply (connected_feat Hij) | apply Hdisj; exact Hij]. }
  constructor.
  - unfold paint. rewrite length_map, length_seq. reflexivity.
  - intros j. rewrite Hp. destruct (marked (fill i) j); [lia|].
    specialize (Hb j). lia.
  - intros j. rewrite Hp. destruct (marked (fill i) j) eqn:Hm.
    + intros _. apply Hfl in Hm. apply (connected_feat Hm).
    + apply Hf.
  - intros j Hj Hfj. rewrite Hp. destruct (marked (fill i) j) eqn:Hm; [lia|].
    destruct (Nat.eq_dec j i) as [->|Hne].
    + exfalso. assert (marked (fill i) i = true) by (apply Hfl; constructor; exact Hi).
      congruence.
    + apply Hd; [lia | exact Hfj].
  - intros j k. rewrite !Hp. destruct (marked (fill i) j) eqn:Hmj.
    + intros _ Hjk. apply Hfl in Hmj.
      assert (Hmk : marked (fill i) k = true).
      { apply Hfl. apply connected_trans with (j := j); assumption. }
      rewrite Hmk. reflexivity.
    + intros Hj Hjk. destruct (marked (fill i) k) eqn:Hmk.
      * exfalso. apply Hfl in Hmk. pose proof (Hdisj k Hmk).
        pose proof (Hc j k Hj Hjk). congruence.
      * apply Hc; assumption.
  - intros j k. rewrite !Hp.
    destruct (marked (fill i) j) eqn:Hmj; destruct (marked (fill i) k) eqn:Hmk.
    + intros _ _. apply Hfl in Hmj, Hmk.
      apply connected_trans with (j := i); [|exact Hmk].
      apply connected_sym; [exact adj_sym | exact Hmj].
    + intros _ E. exfalso. specialize (Hb k). lia.
    + intros _ E. exfalso. specialize (Hb j). lia.
    + apply Hs.
  - intros l Hl. destruct (Nat.eq_dec l (S nb)) as [->|Hne].
    + exists i. split; [lia|]. split.
      * rewrite Hp. replace (marked (fill i) i) with true; [reflexivity|].
        symmetry. apply Hfl. constructor. exact Hi.
      * intros j. rewrite Hp. destruct (marked (fill i) j) eqn:Hm.
        -- intros _. apply Hafter. apply Hfl. exact Hm.
        -- intros H. exfalso. specialize (Hb j). lia.
    + destruct (Hfst l ltac:(lia)) as [r [Hr [Hrl Hmin]]].
      exists r. split; [lia|]. split.
      * rewrite Hp. destruct (marked (fill i) r) eqn:Hm; [|exact Hrl].
        exfalso. apply Hfl in Hm. pose proof (Hdisj r Hm). lia.
      * intros j. rewrite Hp. destruct (marked (fill i) j) eqn:Hm.
        -- intros _. apply Hfl in Hm. apply Hafter in Hm. lia.
        -- apply Hmin.
Qed.

Lemma label_scan_inv m : forall i labels nb,
  scan_inv i labels nb ->
  scan_inv (i + m) (fst (label_scan adj feat (seq i m) labels nb))
                   (snd (label_scan adj feat (seq i m) labels nb)).
Proof.
  induction m as [|m IH]; intros i labels nb Hinv; simpl.
  - rewrite Nat.add_0_r. exact Hinv.
  - replace (i + S m) with (S i + m) by lia.
    destruct (is_feat feat i && (nth i labels 0 =? 0)) eqn:Hc.
    + apply IH. apply andb_true_iff in Hc. destruct Hc as [Hf Hz].
      apply scan_inv_paint; [exact Hinv | exact Hf | apply Nat.eqb_eq; exact Hz].
    + apply IH. apply scan_inv_skip; assumption.
Qed.

Theorem label_cells_inv :
  scan_inv n (fst (label_cells adj feat)) (snd (label_cells adj feat)).
Proof. apply (label_scan_inv n scan_inv_init). Qed.
End ScanFacts.

(** ** The structuring element is centrosymmetric *)

Lemma offset_between_sym (c d : list nat) :
  offset_between d c = option_map (map Z.opp) (offset_between c d).
Proof.
  revert d. induction c as [|x c IH]; intros [|y d]; simpl; try reflexivity.
  rewrite IH. destruct (offset_between c d); simpl; [|reflexivity].
  do 2 f_equal. lia.
Qed.

Lemma generate_binary_structure_opp (connectivity : nat) (o : list Z) :
  generate_binary_structure connectivity (map Z.opp o)
  = generate_binary_structure connectivity o.
Proof.
  unfold generate_binary_structure. f_equal.
  - induction o as [|a o IH]; simpl; [reflexivity|].
    rewrite IH, Z.abs_opp. reflexivity.
  - f_equal. induction o as [|a o IH]; simpl; [reflexivity|].
    rewrite IH. lia.
Qed.

Lemma neighbours_sym (connectivity : nat) (sh : list nat) (i j : nat) :
  neighbours connectivity sh i j = neighbours connectivity sh j i.
Proof.
  unfold neighbours.
  rewrite (offset_between_sym (unravel_index i sh) (unravel_index j sh)).
  destruct (offset_between (unravel_index i sh) (unravel_index j sh)); simpl;
    [|reflexivity].
  symmetry. apply generate_binary_structure_opp.
Qed.

(** ** bincount, item assignment and argmax *)

Lemma setitem_Some {A} (a : list A) (i : nat) (v : A) :
  i < length a -> setitem a i v = Some (firstn i a ++ v :: skipn (S i) a).
Proof.
  intros H. unfold setitem. destruct (Nat.ltb_spec i (length a)); [reflexivity | lia].
Qed.

Lemma bincount_cons (x : nat) (xs : list nat) :
  bincount (x :: xs)
  = map (fun v => count_occ Nat.eq_dec (x :: xs) v) (seq 0 (S (list_max (x :: xs)))).
Proof. reflexivity. Qed.

Lemma argmax_from_spec (l pre : list nat) (best_i : nat) :
  best_i < length pre ->
  (forall j, j < length pre -> nth j pre 0 <= nth best_i pre 0) ->
  (forall j, j < best_i -> nth j pre 0 < nth best_i pre 0) ->
  let k := argmax_from best_i (nth best_i pre 0) (length pre) l in
  k < length (pre ++ l) /\
  (forall j, nth j (pre ++ l) 0 <= nth k (pre ++ l) 0) /\
  (forall j, j < k -> nth j (pre ++ l) 0 < nth k (pre ++ l) 0).
Proof.
  revert pre best_i. induction l as [|x l IH]; intros pre best_i Hb Hmax Hfirst; simpl.
  - rewrite app_nil_r. split; [exact Hb|]. split; [|exact Hfirst].
    intros j. destruct (Nat.lt_ge_cases j (length pre)) as [H|H]; [apply Hmax; exact H|].
    rewrite nth_overflow by exact H. lia.
  - assert (Hx : nth (length pre) (pre ++ [x]) 0 = x).
    { rewrite app_nth2 by lia. rewrite Nat.sub_diag. reflexivity. }
    assert (Hpre : forall j, j < length pre -> nth j (pre ++ [x]) 0 = nth j pre 0).
    { intros j Hj. apply app_nth1. exact Hj. }
    assert (Hlen : length (pre ++ [x]) = S (length pre)).
    { rewrite length_app. simpl. lia. }
    replace (pre ++ x :: l) with ((pre ++ [x]) ++ l) by (rewrite <- app_assoc; reflexivity).
    destruct (Nat.ltb_spec (nth best_i pre 0) x) as [Hlt|Hge].
    + pose proof (IH (pre ++ [x]) (length pre)) as H. rewrite Hx, Hlen in H. apply H.
      * lia.
      * intros j Hj.
        destruct (Nat.eq_dec j (length pre)) as [->|Hne]; [rewrite Hx; lia|].
        rewrite Hpre by lia. specialize (Hmax j ltac:(lia)). lia.
      * intros j Hj. rewrite Hpre by lia. specialize (Hmax j Hj). lia.
    + pose proof (IH (pre ++ [x]) best_i) as H.
      rewrite (Hpre best_i Hb), Hlen in H. apply H.
      * lia.
      * intros j Hj.
        destruct (Nat.eq_dec j (length pre)) as [->|Hne]; [rewrite Hx; lia|].
        rewrite Hpre by lia. apply Hmax. lia.
      * intros j Hj. rewrite Hpre by lia. apply Hfirst. exact Hj.
Qed.

(** [argmax] returns the first index at which the maximum is reached. *)
Lemma argmax_spec (l : list nat) :
  l <> [] ->
  exists k, argmax l = Some k /\ k < length l /\
            (forall j, nth j l 0 <= nth k l 0) /\
            (forall j, j < k -> nth j l 0 < nth k l 0).
Proof.
  destruct l as [|x l]; [congruence|]. intros _.
  exists (argmax_from 0 x 1 l). split; [reflexivity|].
  apply (argmax_from_spec l [x] (best_i := 0)); simpl.
  - lia.
  - intros j Hj. replace j with 0 by lia. lia.
  - intros j Hj. lia.
Qed.

(** ** What the finished labelling says *)

Section InvFacts.
Variable adj : nat -> nat -> bool.
Variable feat : list bool.
Variable labels : list nat.
Variable nb : nat.
Hypothesis Hinv : scan_inv adj feat (length feat) labels nb.

Local Abbreviation connected := (connected adj feat).
Local Abbreviation lab := (fun j => nth j labels 0).

Lemma label_nonzero_iff j : lab j <> 0 <-> is_feat feat j = true.
Proof.
  split; [apply (inv_feat Hinv)|]. intros Hf.
  apply (inv_done Hinv); [apply is_feat_lt | ]; exact Hf.
Qed.

Lemma label_eq_iff j k :
  is_feat feat j = true -> (lab j = lab k <-> connected j k).
Proof.
  intros Hf. apply label_nonzero_iff in Hf. split.
  - apply (inv_same Hinv). exact Hf.
  - intros Hc. symmetry. apply (inv_closed Hinv); assumption.
Qed.

Lemma nb_zero_iff : nb = 0 <-> forall j, is_feat feat j = false.
Proof.
  split.
  - intros Hz j. destruct (is_feat feat j) eqn:Hf; [|reflexivity].
    apply label_nonzero_iff in Hf. pose proof (inv_bound Hinv j). simpl in *. lia.
  - intros Hno. destruct (Nat.eq_dec nb 0) as [E|E]; [exact E|].
    destruct (inv_first Hinv (l := 1)) as [r [_ [Hr _]]]; [lia|].
    assert (Hf : is_feat feat r = true) by (apply label_nonzero_iff; simpl; lia).
    rewrite Hno in Hf. discriminate.
Qed.

Lemma labels_max : list_max labels <= nb.
Proof.
  apply list_max_le. apply Forall_forall. intros x Hx.
  apply (In_nth _ _ 0) in Hx. destruct Hx as [j [_ <-]]. apply (inv_bound Hinv).
Qed.

Lemma first_cell l :
  1 <= l <= nb ->
  exists r, lab r = l /\ is_feat feat r = true /\ forall j, l <= lab j -> r <= j.
Proof.
  intros Hl. destruct (inv_first Hinv Hl) as [r [_ [Hr Hmin]]].
  exists r. split; [exact Hr|]. split; [|exact Hmin].
  apply label_nonzero_iff. simpl. lia.
Qed.

Lemma labels_used l : 1 <= l <= nb -> 1 <= count_occ Nat.eq_dec labels l.
Proof.
  intros Hl. destruct (first_cell Hl) as [r [Hr _]].
  assert (Hin : In l labels).
  { rewrite <- Hr. apply nth_In. apply nth_nonzero_lt. simpl in Hr. lia. }
  apply (count_occ_In Nat.eq_dec) in Hin. lia.
Qed.

(** One region exactly: the features are not empty and all connected. *)
Lemma single_component_iff :
  nb = 1 <->
  exists seed, is_feat feat seed = true /\
               forall j, is_feat feat j = true -> connected seed j.
Proof.
  split.
  - intros Hone. destruct (first_cell (l := 1)) as [r [Hr [Hf _]]]; [lia|].
    exists r. split; [exact Hf|]. intros j Hj.
    apply label_eq_iff; [exact Hf|]. apply label_nonzero_iff in Hj.
    pose proof (inv_bound Hinv j). simpl in *. lia.
  - intros [seed [Hs Hall]].
    destruct (Nat.eq_dec nb 0) as [E0|E0].
    { pose proof (proj1 nb_zero_iff E0 seed). congruence. }
    destruct (Nat.le_gt_cases nb 1) as [Hle|Hgt]; [lia|].
    exfalso.
    destruct (first_cell (l := 1)) as [r1 [Hr1 [Hf1 _]]]; [lia|].
    destruct (first_cell (l := 2)) as [r2 [Hr2 [Hf2 _]]]; [lia|].
    assert (H1 : lab seed = lab r1) by (apply label_eq_iff; auto).
    assert (H2 : lab seed = lab r2) by (apply label_eq_iff; auto).
    simpl in *. lia.
Qed.

Lemma nth_bincount l : nth l (bincount labels) 0 = count_occ Nat.eq_dec labels l.
Proof.
  destruct labels as [|x xs] eqn:E; [destruct l; reflexivity|].
  rewrite bincount_cons, nth_map_seq.
  destruct (Nat.ltb_spec l (S (list_max (x :: xs)))) as [Hlt|Hge]; [reflexivity|].
  symmetry. apply count_occ_not_In. intros Hin.
  assert (Hmax : Forall (fun k => k <= list_max (x :: xs)) (x :: xs))
    by (apply list_max_le; lia).
  rewrite Forall_forall in Hmax. specialize (Hmax l Hin). lia.
Qed.

Lemma bincount_length : 1 <= nb -> length (bincount labels) = S (list_max labels).
Proof.
  intros Hnb. destruct (first_cell (l := 1)) as [r [Hr _]]; [lia|].
  destruct labels as [|x xs] eqn:E.
  - simpl in Hr. destruct r; simpl in Hr; lia.
  - rewrite bincount_cons, length_map, length_seq. reflexivity.
Qed.

(** Lines 44-47 select the first label of maximal size. *)
Lemma select_largest_spec (sh : list nat) :
  1 <= nb ->
  exists k,
    select_largest (mk_ndarray sh labels) = inr (eq_scalar (mk_ndarray sh labels) k) /\
    1 <= k <= nb /\
    (forall l, 1 <= l <= nb ->
               count_occ Nat.eq_dec labels l <= count_occ Nat.eq_dec labels k) /\
    (forall l, 1 <= l < k ->
               count_occ Nat.eq_dec labels l < count_occ Nat.eq_dec labels k).
Proof.
  intros Hnb. unfold select_largest. simpl flat.
  pose proof (bincount_length Hnb) as Hlen.
  rewrite setitem_Some by lia.
  change (firstn 0 (bincount labels) ++ 0 :: skipn 1 (bincount labels))
    with (0 :: skipn 1 (bincount labels)).
  set (lc := 0 :: skipn 1 (bincount labels)).
  assert (Hnth : forall l, nth l lc 0 = if l =? 0 then 0 else count_occ Nat.eq_dec labels l).
  { intros [|l]; [reflexivity|]. unfold lc. simpl nth at 1.
    rewrite <- nth_bincount. destruct (bincount labels); [destruct l|]; reflexivity. }
  assert (Hlc : length lc = S (list_max labels)).
  { unfold lc. cbn [length]. rewrite length_skipn. lia. }
  destruct (argmax_spec (l := lc)) as [k [Hk [Hklt [Hmax Hfirst]]]]; [discriminate|].
  rewrite Hk. exists k. split; [reflexivity|].
  assert (Hk0 : k <> 0).
  { intros ->. specialize (Hmax 1). rewrite !Hnth in Hmax. simpl in Hmax.
    pose proof (labels_used (l := 1)). lia. }
  pose proof labels_max.
  split; [lia|]. split.
  - intros l Hl. specialize (Hmax l). rewrite !Hnth in Hmax.
    destruct (Nat.eqb_spec l 0), (Nat.eqb_spec k 0); lia.
  - intros l Hl. specialize (Hfirst l). rewrite !Hnth in Hfirst.
    destruct (Nat.eqb_spec l 0), (Nat.eqb_spec k 0); lia.
Qed.
End InvFacts.

(** ** largest_connected_component *)

Lemma nth_map_eqb (labels : list nat) (k j : nat) :
  k <> 0 -> nth j (map (fun l => l =? k) labels) false = (nth j labels 0 =? k).
Proof.
  intros Hk. destruct (Nat.lt_ge_cases j (length labels)) as [Hlt|Hge].
  - rewrite (nth_indep _ false (0 =? k)) by (rewrite length_map; exact Hlt).
    apply (map_nth (fun l => l =? k)).
  - rewrite !nth_overflow by (try rewrite length_map; exact Hge).
    symmetry. apply Nat.eqb_neq. congruence.
Qed.

Section LargestFacts.
Context {A : Type} `{Dtype A}.
Variable volume : ndarray A.

Local Abbreviation adj := (neighbours 1 (shape volume)).
Local Abbreviation feat := (features volume).

Lemma ndimage_label_eq :
  ndimage_label volume
  = (mk_ndarray (shape volume) (fst (label_cells adj feat)), snd (label_cells adj feat)).
Proof.
  unfold ndimage_label, ndimage_label_with, features.
  destruct (label_cells _ _). reflexivity.
Qed.

Lemma ndimage_label_inv :
  scan_inv adj feat (length feat)
           (flat (fst (ndimage_label volume))) (snd (ndimage_label volume)).
Proof.
  rewrite ndimage_label_eq. simpl. apply label_cells_inv. apply neighbours_sym.
Qed.

Lemma is_feat_astype j :
  marked (flat (astype_bool volume)) j = is_feat feat j.
Proof. reflexivity. Qed.

(** A successful call returns the mask of one region of the labelling. *)
Lemma largest_region mask :
  largest_connected_component volume = inr mask ->
  shape mask = shape volume /\
  length (flat mask) = length (flat volume) /\
  exists seed, is_feat feat seed = true /\
               forall j, marked (flat mask) j = true <-> face_connected volume seed j.
Proof.
  unfold largest_connected_component.
  pose proof ndimage_label_inv as Hinv.
  destruct (ndimage_label volume) as [labels nb] eqn:El.
  assert (Hsh : shape labels = shape volume).
  { rewrite ndimage_label_eq in El. injection El as <- _. reflexivity. }
  simpl in Hinv.
  destruct (Nat.eqb_spec nb 0) as [E0|E0]; [discriminate|].
  destruct (Nat.eqb_spec nb 1) as [E1|E1].
  - intros Hm. injection Hm as <-. split; [reflexivity|].
    split; [simpl; apply length_map|].
    destruct (proj1 (single_component_iff Hinv) E1)
      as [seed [Hs Hall]].
    exists seed. split; [exact Hs|]. intros j. rewrite is_feat_astype. split.
    + apply Hall.
    + intros Hc. apply (connected_feat Hc).
  - destruct (select_largest_spec Hinv (shape labels))
      as [k [Hsel [Hk _]]]; [lia|].
    destruct labels as [sh ls]. simpl in *. subst sh. rewrite Hsel.
    intros Hm. injection Hm as <-. split; [reflexivity|].
    split.
    { simpl. rewrite length_map. rewrite (inv_length Hinv). apply length_map. }
    destruct (first_cell Hinv Hk) as [r [Hr [Hf _]]].
    exists r. split; [exact Hf|]. intros j. unfold marked. simpl flat.
    rewrite nth_map_eqb by lia. rewrite Nat.eqb_eq, <- Hr.
    unfold face_connected.
    rewrite <- (label_eq_iff Hinv r j Hf).
    split; congruence.
Qed.
(** With one region the short cut is taken. *)
Lemma one_region_shortcut :
  (exists seed, is_feat feat seed = true /\
                forall j, is_feat feat j = true -> face_connected volume seed j) ->
  snd (ndimage_label volume) = 1 /\
  largest_connected_component volume = inr (astype_bool volume).
Proof.
  intros Hone. pose proof ndimage_label_inv as Hinv.
  apply (single_component_iff Hinv) in Hone. split; [exact Hone|].
  unfold largest_connected_component.
  destruct (ndimage_label volume) as [labels nb]. simpl in Hone. subst nb.
  reflexivity.
Qed.

End LargestFacts.

(** ** The default structure links exactly the cells that share a face *)

Lemma sumsq_nonneg (o : list Z) :
  (0 <= fold_right (fun o acc => o * o + acc) 0 o)%Z.
Proof. induction o as [|a o IH]; simpl; [lia | nia]. Qed.

Lemma offset_between_zero (c d : list nat) :
  (exists o, offset_between c d = Some o
             /\ (fold_right (fun o acc => o * o + acc) 0 o <= 0)%Z)
  <-> c = d.
Proof.
  revert d. induction c as [|x c IH]; intros [|y d]; simpl.
  - split; [reflexivity | intros _; exists []; simpl; split; [reflexivity | lia]].
  - split; [intros [o [H _]]; discriminate | discriminate].
  - split; [intros [o [H _]]; discriminate | discriminate].
  - split.
    + intros [o [Ho Hs]]. destruct (offset_between c d) as [o'|] eqn:E; [|discriminate].
      injection Ho as <-. simpl in Hs. pose proof (sumsq_nonneg o').
      assert (x = y) by nia. subst y. f_equal. apply IH. exists o'. split; [exact E | nia].
    + intros E. injection E as <- <-. destruct (proj2 (IH c) eq_refl) as [o [Ho Hs]].
      rewrite Ho. eexists. split; [reflexivity|]. simpl. nia.
Qed.

Lemma offset_between_one (c d : list nat) :
  (exists o, offset_between c d = Some o
             /\ (fold_right (fun o acc => o * o + acc) 0 o <= 1)%Z)
  <-> c = d \/ face_adjacent c d.
Proof.
  revert d. induction c as [|x c IH]; intros [|y d]; simpl.
  - split; [auto | intros _; exists []; simpl; split; [reflexivity | lia]].
  - split; [intros [o [H _]]; discriminate | intros [H|[]]; discriminate].
  - split; [intros [o [H _]]; discriminate | intros [H|[]]; discriminate].
  - split.
    + intros [o [Ho Hs]]. destruct (offset_between c d) as [o'|] eqn:E; [|discriminate].
      injection Ho as <-. simpl in Hs. pose proof (sumsq_nonneg o').
      destruct (Nat.eq_dec x y) as [->|Hne].
      * destruct (proj1 (IH d)) as [->|Hf].
        -- exists o'. split; [exact E | nia].
        -- left. reflexivity.
        -- right. right. split; [reflexivity | exact Hf].
      * right. left. split; [nia|].
        apply offset_between_zero. exists o'. split; [exact E | nia].
    + intros [E|[[Hxy E]|[-> Hf]]].
      * injection E as <- <-. destruct (proj2 (offset_between_zero c c) eq_refl) as [o [Ho Hs]].
        rewrite Ho. eexists. split; [reflexivity|]. simpl. nia.
      * subst d. destruct (proj2 (offset_between_zero c c) eq_refl) as [o [Ho Hs]].
        rewrite Ho. eexists. split; [reflexivity|]. simpl. nia.
      * destruct (proj2 (IH d) (or_intror Hf)) as [o [Ho Hs]].
        rewrite Ho. eexists. split; [reflexivity|]. simpl. nia.
Qed.

Lemma sumsq_one_abs (o : list Z) :
  (fold_right (fun o acc => o * o + acc) 0 o <= 1)%Z ->
  forallb (fun o => (Z.abs o <=? 1)%Z) o = true.
Proof.
  induction o as [|a o IH]; simpl; intros Hs; [reflexivity|].
  pose proof (sumsq_nonneg o). apply andb_true_iff. split.
  - apply Z.leb_le. nia.
  - apply IH. nia.
Qed.

Theorem neighbours_face (sh : list nat) (i j : nat) :
  neighbours 1 sh i j = true
  <-> unravel_index i sh = unravel_index j sh
      \/ face_adjacent (unravel_index i sh) (unravel_index j sh).
Proof.
  rewrite <- offset_between_one. unfold neighbours, generate_binary_structure.
  destruct (offset_between (unravel_index i sh) (unravel_index j sh)) as [o|].
  - rewrite andb_true_iff, Z.leb_le. split.
    + intros [_ Hs]. exists o. split; [reflexivity | exact Hs].
    + intros [o' [E Hs]]. injection E as <-. split; [apply sumsq_one_abs|]; exact Hs.
  - split; [discriminate | intros [o [E _]]; discriminate].
Qed.

(** ** The mask of a region is a single region of its own *)

Lemma connected_transfer (adj : nat -> nat -> bool) (feat feat' : list bool) (seed : nat) :
  (forall j, connected adj feat seed j -> is_feat feat' j = true) ->
  forall j, connected adj feat seed j -> connected adj feat' seed j.
Proof.
  intros Hin j Hc. induction Hc as [i Hi | i j k Hij IH Ha Hk].
  - apply connected_refl. apply Hin. apply connected_refl. exact Hi.
  - apply connected_step with (j := j).
    + apply IH. exact Hin.
    + exact Ha.
    + apply Hin. apply connected_step with (j := j); assumption.
Qed.

Lemma astype_bool_mask (mask : ndarray bool) : astype_bool mask = mask.
Proof. destruct mask as [sh fl]. unfold astype_bool. simpl. rewrite map_id. reflexivity. Qed.

Lemma features_mask (mask : ndarray bool) : features mask = flat mask.
Proof. unfold features. simpl. apply map_id. Qed.

Lemma largest_idempotent {A} `{Dtype A} (volume : ndarray A) (mask : ndarray bool) :
  largest_connected_component volume = inr mask ->
  largest_connected_component mask = inr mask.
Proof.
  intros Hm. destruct (largest_region volume Hm) as [Hsh [_ [seed [Hs Hreg]]]].
  rewrite <- (astype_bool_mask mask) at 2.
  apply one_region_shortcut.
  assert (Hseed : face_connected volume seed seed) by (apply connected_refl; exact Hs).
  exists seed. rewrite features_mask. split.
  - apply Hreg. exact Hseed.
  - intros j Hj. apply Hreg in Hj. unfold face_connected in *.
    rewrite features_mask, Hsh.
    apply connected_transfer with (feat := features volume); [|exact Hj].
    intros k Hk. apply Hreg. exact Hk.
Qed.

(** ** Flat indices and coordinates *)

Lemma ravel_unravel (sh : list nat) : forall i,
  i < shape_size sh -> ravel_multi_index (unravel_index i sh) sh = i.
Proof.
  induction sh as [|d rest IH]; intros i Hi; simpl in *.
  - lia.
  - assert (Hpos : shape_size rest <> 0) by (intros E; rewrite E in Hi; lia).
    rewrite IH by (apply Nat.mod_upper_bound; exact Hpos).
    pose proof (Nat.div_mod_eq i (shape_size rest)). lia.
Qed.

Lemma unravel_in_bounds (sh : list nat) : forall i,
  i < shape_size sh -> in_bounds (map Z.of_nat (unravel_index i sh)) sh = true.
Proof.
  induction sh as [|d rest IH]; intros i Hi; simpl in *; [reflexivity|].
  assert (Hpos : shape_size rest <> 0) by (intros E; rewrite E in Hi; lia).
  rewrite IH by (apply Nat.mod_upper_bound; exact Hpos).
  rewrite andb_true_r. apply andb_true_iff. split.
  - apply Z.leb_le. lia.
  - apply Z.ltb_lt. apply Nat2Z.inj_lt. apply Nat.Div0.div_lt_upper_bound. lia.
Qed.

Lemma map_to_nat_of_nat (c : list nat) : map Z.to_nat (map Z.of_nat c) = c.
Proof.
  induction c as [|x c IH]; simpl; [reflexivity|]. rewrite IH, Nat2Z.id. reflexivity.
Qed.

(** ** Item assignment *)

Lemma nth_setitem {A} (a a' : list A) (i : nat) (v d : A) :
  setitem a i v = Some a' ->
  i < length a /\ length a' = length a /\
  forall j, nth j a' d = if j =? i then v else nth j a d.
Proof.
  unfold setitem. destruct (Nat.ltb_spec i (length a)) as [Hlt|Hge]; [|discriminate].
  intros E. assert (Ea : a' = firstn i a ++ v :: skipn (S i) a) by congruence.
  clear E. subst a'. split; [exact Hlt|]. split.
  - rewrite length_app. cbn [length]. rewrite length_firstn, length_skipn. lia.
  - intros j. destruct (Nat.eqb_spec j i) as [->|Hne].
    + rewrite app_nth2 by (rewrite length_firstn; lia).
      rewrite length_firstn. replace (i - Nat.min i (length a)) with 0 by lia. reflexivity.
    + destruct (Nat.lt_ge_cases j i) as [Hji|Hji].
      * rewrite app_nth1 by (rewrite length_firstn; lia).
        rewrite nth_firstn. destruct (Nat.ltb_spec j i); [reflexivity | lia].
      * rewrite app_nth2 by (rewrite length_firstn; lia).
        rewrite length_firstn. replace (j - Nat.min i (length a)) with (S (j - S i)) by lia.
        cbn [nth]. rewrite nth_skipn. f_equal. lia.
Qed.

Lemma count_true_setitem (out out' : list bool) (i : nat) :
  setitem out i true = Some out' ->
  nth i out false = false ->
  count_true out' = S (count_true out).
Proof.
  unfold setitem. destruct (Nat.ltb_spec i (length out)) as [Hlt|Hge]; [|discriminate].
  intros E Hi.
  assert (Ea : out' = firstn i out ++ true :: skipn (S i) out) by congruence.
  clear E. subst out'.
  rewrite <- (firstn_skipn i out) at 3.
  unfold count_true. rewrite !count_occ_app.
  assert (Hsk : skipn i out = false :: skipn (S i) out).
  { rewrite <- Hi. clear Hi. revert i Hlt. induction out as [|a out IH]; intros i Hlt.
    - simpl in Hlt. lia.
    - destruct i; [reflexivity|]. simpl in *. apply IH. lia. }
  rewrite Hsk. simpl. lia.
Qed.

(** Setting distinct cells that were false adds one true cell each. *)
Lemma setitem_cells (sh : list nat) (cells : list nat) :
  forall out,
    NoDup cells ->
    (forall i, In i cells ->
       i < shape_size sh /\ i < length out /\ nth i out false = false) ->
    exists out',
      setitem_coords out sh (map (fun i => unravel_index i sh) cells) = Some out' /\
      length out' = length out /\
      (forall j, nth j out' false = true <-> nth j out false = true \/ In j cells) /\
      count_true out' = count_true out + length cells.
Proof.
  induction cells as [|i cells IH]; intros out Hnd Hin; simpl.
  - exists out. split; [reflexivity|]. split; [reflexivity|]. split; [|lia].
    intros j. tauto.
  - destruct (Hin i (or_introl eq_refl)) as [Hsz [Hlt Hfalse]].
    rewrite ravel_unravel by exact Hsz.
    pose proof (setitem_Some out true Hlt) as Hset. rewrite Hset.
    destruct (nth_setitem out i true false Hset) as [_ [Hlen Hnth]].
    pose proof (count_true_setitem out i Hset Hfalse) as Hcount.
    set (out1 := firstn i out ++ true :: skipn (S i) out) in *.
    inversion Hnd as [|i' cells' Hnotin Hnd']; subst.
    destruct (IH out1 Hnd') as [out' [Hres [Hlen' [Hmem Hcnt]]]].
    { intros i' Hi'. destruct (Hin i' (or_intror Hi')) as [Hsz' [Hlt' Hf']].
      split; [exact Hsz'|]. split; [lia|]. rewrite Hnth.
      destruct (Nat.eqb_spec i' i) as [->|_]; [contradiction | exact Hf']. }
    exists out'. split; [exact Hres|]. split; [lia|]. split; [|lia].
    intros j. rewrite Hmem, Hnth. destruct (Nat.eqb_spec j i) as [->|Hne].
    + split; [intros _; right; left; reflexivity | intros _; left; reflexivity].
    + split; [intros [H|H]; [left; exact H | right; right; exact H]|].
      intros [H|[H|H]]; [left; exact H | congruence | right; exact H].
Qed.

(** ** Comparisons and maxima of rationals *)

Lemma Qlt_bool_iff (a b : Q) : Qlt_bool a b = true <-> (a < b)%Q.
Proof.
  unfold Qlt_bool. rewrite negb_true_iff. split.
  - intros H. apply Qnot_le_lt. intros Hle. apply Qle_bool_iff in Hle. congruence.
  - intros H. destruct (Qle_bool b a) eqn:E; [|reflexivity].
    apply Qle_bool_iff in E. exfalso. apply (Qlt_not_le _ _ H). exact E.
Qed.

Lemma Qlt_bool_false_iff (a b : Q) : Qlt_bool a b = false <-> (b <= a)%Q.
Proof.
  unfold Qlt_bool. rewrite negb_false_iff. apply Qle_bool_iff.
Qed.

Lemma py_max_spec (a b : Q) :
  (py_max a b = a \/ py_max a b = b) /\ (a <= py_max a b)%Q /\ (b <= py_max a b)%Q.
Proof.
  unfold py_max. destruct (Qlt_bool a b) eqn:E.
  - apply Qlt_bool_iff in E. split; [right; reflexivity|].
    split; [apply Qlt_le_weak; exact E | apply Qle_refl].
  - apply Qlt_bool_false_iff in E. split; [left; reflexivity|].
    split; [apply Qle_refl | exact E].
Qed.

Lemma fold_py_max_spec (l : list Q) : forall x,
  In (fold_left py_max l x) (x :: l) /\
  forall y, In y (x :: l) -> (y <= fold_left py_max l x)%Q.
Proof.
  induction l as [|a l IH]; intros x; simpl.
  - split; [left; reflexivity|]. intros y [<-|[]]. apply Qle_refl.
  - destruct (IH (py_max x a)) as [Hin Hle].
    destruct (py_max_spec x a) as [Hsel [Hx Ha]]. split.
    + destruct Hin as [E|Hin]; [|right; right; exact Hin].
      rewrite <- E. destruct Hsel as [->| ->]; [left | right; left]; reflexivity.
    + intros y [<-|[<-|Hy]].
      * apply Qle_trans with (y := py_max x a); [exact Hx | apply Hle; left; reflexivity].
      * apply Qle_trans with (y := py_max x a); [exact Ha | apply Hle; left; reflexivity].
      * apply Hle. right. exact Hy.
Qed.

(** [np.max] returns a cell that no cell exceeds. *)
Lemma np_max_spec (l : list Q) (m : Q) :
  np_max l = Some m -> In m l /\ forall y, In y l -> (y <= m)%Q.
Proof.
  destruct l as [|x l]; simpl; [discriminate|]. intros E. injection E as <-.
  apply fold_py_max_spec.
Qed.

Lemma np_max_nonempty (l : list Q) : l <> [] -> exists m, np_max l = Some m.
Proof. destruct l as [|x l]; [congruence|]. intros _. eexists. reflexivity. Qed.

(** ** Windows *)

Lemma nth_map_lt {A B} (f : A -> B) (l : list A) (i : nat) (d : A) (e : B) :
  i < length l -> nth i (map f l) e = f (nth i l d).
Proof.
  intros Hi. rewrite (nth_indep _ e (f d)) by (rewrite length_map; exact Hi).
  apply map_nth.
Qed.

Lemma in_axis_window (r x : nat) (z : Z) :
  In z (axis_window (2 * r + 1) x)
  <-> (Z.of_nat x - Z.of_nat r <= z <= Z.of_nat x + Z.of_nat r)%Z.
Proof.
  unfold axis_window. rewrite in_map_iff.
  replace ((2 * r + 1) / 2) with r.
  2:{ apply Nat.div_unique with (r := 1); lia. }
  split.
  - intros [k [<- Hk]]. apply in_seq in Hk. lia.
  - intros Hz. exists (Z.to_nat (z - Z.of_nat x + Z.of_nat r)). split; [lia|].
    apply in_seq. lia.
Qed.

Lemma in_window (size : nat) (c : list nat) : forall p,
  In p (window size c) <-> Forall2 (fun z x => In z (axis_window size x)) p c.
Proof.
  induction c as [|x c IH]; intros p; simpl.
  - split.
    + intros [<-|[]]. constructor.
    + intros Hf. inversion Hf. left. reflexivity.
  - rewrite in_flat_map. split.
    + intros [z [Hz Hp]]. apply in_map_iff in Hp. destruct Hp as [p' [<- Hp']].
      constructor; [exact Hz | apply IH; exact Hp'].
    + intros Hf. inversion Hf as [|z x' p' c' Hz Hrest]; subst.
      exists z. split; [exact Hz|]. apply in_map. apply IH. exact Hrest.
Qed.

Lemma centre_in_window (r : nat) (c : list nat) :
  In (map Z.of_nat c) (window (2 * r + 1) c).
Proof.
  apply in_window. induction c as [|x c IH]; simpl; constructor; [|exact IH].
  apply in_axis_window. lia.
Qed.

Lemma get_constant_centre (image : ndarray Q) (i : nat) :
  well_shaped image -> i < length (flat image) ->
  get_constant image 0 (map Z.of_nat (unravel_index i (shape image))) = nth i (flat image) 0%Q.
Proof.
  unfold well_shaped, get_constant. intros Hw Hi. rewrite Hw in Hi.
  rewrite unravel_in_bounds by exact Hi.
  rewrite map_to_nat_of_nat, ravel_unravel by exact Hi. reflexivity.
Qed.
(** ** binary64 products *)

Lemma round_double_compat (x y : Q) : (x == y)%Q -> round_double x = round_double y.
Proof. intros E. unfold round_double. rewrite (Qred_complete _ _ E). reflexivity. Qed.

Lemma is_double_compat (x y : Q) : (x == y)%Q -> is_double x = is_double y.
Proof.
  intros E. unfold is_double. rewrite (round_double_compat E).
  destruct (Qeq_bool (round_double y) x) eqn:Ex, (Qeq_bool (round_double y) y) eqn:Ey;
    try reflexivity; exfalso.
  - apply Qeq_bool_iff in Ex. apply Qeq_bool_neq in Ey. apply Ey. rewrite Ex. exact E.
  - apply Qeq_bool_iff in Ey. apply Qeq_bool_neq in Ex. apply Ex. rewrite Ey.
    symmetry. exact E.
Qed.

(** The float product does not depend on how its operands are written. *)
Lemma float_mul_compat (x x' y y' : Q) :
  (x == x')%Q -> (y == y')%Q -> (float_mul x y == float_mul x' y')%Q.
Proof.
  intros Ex Ey. unfold float_mul.
  rewrite (is_double_compat Ex), (is_double_compat Ey).
  destruct (is_double x' && is_double y').
  - rewrite (@round_double_compat (x * y) (x' * y')); [reflexivity|].
    rewrite Ex, Ey. reflexivity.
  - rewrite Ex, Ey. reflexivity.
Qed.

(** Multiplying by 1 is exact. *)
Lemma float_mul_1_l (y : Q) : (float_mul 1 y == y)%Q.
Proof.
  unfold float_mul. destruct (is_double 1 && is_double y) eqn:E.
  - apply andb_prop in E. destruct E as [_ Hy].
    rewrite (@round_double_compat (1 * y) y) by apply Qmult_1_l.
    apply Qeq_bool_iff. exact Hy.
  - apply Qmult_1_l.
Qed.

(** ** argsort *)

Section SortFacts.
Variable key : nat -> Q.
Variable before : nat -> nat -> bool.
Hypothesis before_le : forall i j, before i j = true -> (key i <= key j)%Q.
Hypothesis after_le : forall i j, before i j = false -> (key j <= key i)%Q.

Local Abbreviation le_key := (fun i j => (key i <= key j)%Q).

Lemma insert_by_perm (i : nat) (l : list nat) :
  Permutation (insert_by before i l) (i :: l).
Proof.
  induction l as [|j l IH]; simpl; [apply Permutation_refl|].
  destruct (before i j); [apply Permutation_refl|].
  apply perm_trans with (l' := j :: i :: l); [|apply perm_swap].
  apply perm_skip. exact IH.
Qed.


End SortFacts.

Section ArgsortFacts.
Context {ties : TieOrder}.
Variable keys : list Q.

Local Abbreviation key := (fun i => nth i keys 0%Q).



Lemma argsort_perm : Permutation (argsort keys) (seq 0 (length keys)).
Proof.
  unfold argsort. induction (seq 0 (length keys)) as [|i l IH]; simpl.
  - apply Permutation_refl.
  - apply perm_trans with (l' := i :: fold_right (insert_by (sorts_before keys)) [] l).
    + apply insert_by_perm.
    + apply perm_skip. exact IH.
Qed.


End ArgsortFacts.

(** ** The stages of _peak_local_max *)

(** Whatever order the sort leaves equal intensities in. *)
Section PeakStages.
Context {ties : TieOrder}.

Lemma gt_scalar_nth (a : ndarray Q) (t : Q) (i : nat) :
  nth i (flat (gt_scalar a t)) false = true
  <-> i < length (flat a) /\ (t < nth i (flat a) 0)%Q.
Proof.
  unfold gt_scalar. simpl.
  destruct (Nat.lt_ge_cases i (length (flat a))) as [Hlt|Hge].
  - rewrite (nth_map_lt _ _ 0%Q false Hlt). rewrite Qlt_bool_iff. tauto.
  - rewrite nth_overflow by (rewrite length_map; exact Hge).
    split; [discriminate | intros [H _]; lia].
Qed.

Lemma in_survivors (masked : ndarray Q) (thr : Q) (i : nat) :
  In i (survivors masked thr)
  <-> i < length (flat masked) /\ (thr < nth i (flat masked) 0)%Q.
Proof.
  unfold survivors. rewrite filter_In, in_seq, gt_scalar_nth.
  unfold gt_scalar. simpl. rewrite length_map. intuition lia.
Qed.

Lemma survivors_NoDup (masked : ndarray Q) (thr : Q) : NoDup (survivors masked thr).
Proof. apply NoDup_filter. apply seq_NoDup. Qed.

Lemma argwhere_survivors (masked : ndarray Q) (thr : Q) :
  argwhere (gt_scalar masked thr)
  = map (fun i => unravel_index i (shape masked)) (survivors masked thr).
Proof. reflexivity. Qed.

Lemma take_flat_cells (image : ndarray Q) (cells : list nat) :
  (forall i, In i cells -> i < shape_size (shape image)) ->
  take_flat image (map (fun i => unravel_index i (shape image)) cells)
  = map (fun i => nth i (flat image) 0%Q) cells.
Proof.
  intros Hin. unfold take_flat. rewrite map_map. apply map_ext_in.
  intros i Hi. rewrite ravel_unravel by (apply Hin; exact Hi). reflexivity.
Qed.

Lemma take_rows_cells (sh : list nat) (cells idx : list nat) :
  (forall j, In j idx -> j < length cells) ->
  take_rows (map (fun i => unravel_index i sh) cells) idx
  = map (fun i => unravel_index i sh) (map (fun j => nth j cells 0) idx).
Proof.
  intros Hin. unfold take_rows. rewrite map_map. apply map_ext_in.
  intros j Hj.
  apply (nth_map_lt (fun i => unravel_index i sh) cells 0 [] (Hin j Hj)).
Qed.

Lemma map_nth_seq (cells : list nat) :
  map (fun j => nth j cells 0) (seq 0 (length cells)) = cells.
Proof.
  apply (nth_ext _ _ 0 0).
  - rewrite length_map, length_seq. reflexivity.
  - intros j Hj. rewrite length_map, length_seq in Hj.
    rewrite nth_map_seq. destruct (Nat.ltb_spec j (length cells)); [reflexivity | lia].
Qed.

Lemma ranked_perm (masked : ndarray Q) (thr : Q) :
  Permutation (ranked masked thr) (survivors masked thr).
Proof.
  unfold ranked.
  apply perm_trans with (l' := map (fun j => nth j (survivors masked thr) 0)
                                   (seq 0 (length (survivors masked thr)))).
  - apply Permutation_map.
    apply perm_trans with (l' := argsort (map (fun i => nth i (flat masked) 0%Q)
                                             (survivors masked thr))).
    + apply Permutation_sym. apply Permutation_rev.
    + rewrite <- (length_map (fun i => nth i (flat masked) 0%Q) (survivors masked thr)).
      apply argsort_perm.
  - rewrite map_nth_seq. apply Permutation_refl.
Qed.

(** The coordinates lines 156-159 keep are those of [kept_cells]. *)
Lemma truncate_cells (masked : ndarray Q) (thr : Q) (num_peaks : option nat) :
  well_shaped masked ->
  truncate masked (argwhere (gt_scalar masked thr)) num_peaks
  = map (fun i => unravel_index i (shape masked)) (kept_cells masked thr num_peaks).
Proof.
  intros Hw. rewrite argwhere_survivors. unfold truncate, kept_cells, exceeds.
  rewrite length_map. destruct num_peaks as [k|]; [|reflexivity].
  destruct (k <? length (survivors masked thr)); [|reflexivity].
  simpl take_first. rewrite take_flat_cells.
  2:{ intros i Hi. apply in_survivors in Hi. rewrite <- Hw. apply Hi. }
  rewrite take_rows_cells.
  - rewrite firstn_map. reflexivity.
  - intros j Hj. apply in_rev in Hj.
    apply (Permutation_in _ (argsort_perm _)) in Hj. apply in_seq in Hj.
    rewrite length_map in Hj. lia.
Qed.

Lemma in_firstn_in {A} (k : nat) (l : list A) (x : A) : In x (firstn k l) -> In x l.
Proof.
  intros H. rewrite <- (firstn_skipn k l). apply in_or_app. left. exact H.
Qed.

Lemma kept_cells_incl (masked : ndarray Q) (thr : Q) (num_peaks : option nat) (i : nat) :
  In i (kept_cells masked thr num_peaks) -> In i (survivors masked thr).
Proof.
  unfold kept_cells. destruct num_peaks as [k|]; [|tauto].
  destruct (k <? length (survivors masked thr)); [|tauto].
  intros Hi. apply (Permutation_in _ (ranked_perm masked thr)).
  apply (in_firstn_in _ _ _ Hi).
Qed.

Lemma kept_cells_NoDup (masked : ndarray Q) (thr : Q) (num_peaks : option nat) :
  NoDup (kept_cells masked thr num_peaks).
Proof.
  unfold kept_cells. destruct num_peaks as [k|]; [|apply survivors_NoDup].
  destruct (k <? length (survivors masked thr)); [|apply survivors_NoDup].
  assert (Hnd : NoDup (ranked masked thr)).
  { apply (Permutation_NoDup (Permutation_sym (ranked_perm masked thr))).
    apply survivors_NoDup. }
  rewrite <- (firstn_skipn k (ranked masked thr)) in Hnd.
  apply (NoDup_app_remove_r _ _ Hnd).
Qed.

Lemma kept_cells_length (masked : ndarray Q) (thr : Q) (num_peaks : option nat) :
  length (kept_cells masked thr num_peaks)
  = match num_peaks with
    | Some k => Nat.min k (length (survivors masked thr))
    | None => length (survivors masked thr)
    end.
Proof.
  unfold kept_cells. destruct num_peaks as [k|]; [|reflexivity].
  destruct (Nat.ltb_spec k (length (survivors masked thr))) as [Hlt|Hge]; [|lia].
  rewrite length_firstn, (Permutation_length (ranked_perm masked thr)). reflexivity.
Qed.

(** ** The candidate mask and the masked grid *)

Section MaskedFacts.
Variable image : ndarray Q.
Variable min_distance : nat.

Local Abbreviation n := (length (flat image)).
Local Abbreviation size := (2 * min_distance + 1).

Lemma maximum_filter_length : length (flat (maximum_filter image size)) = n.
Proof. unfold maximum_filter. simpl. rewrite length_map, length_seq. reflexivity. Qed.

Lemma candidates_length : length (flat (candidates image min_distance)) = n.
Proof.
  unfold candidates, eq_array. cbn [flat]. rewrite length_map, length_combine.
  rewrite maximum_filter_length. lia.
Qed.

Lemma masked_length : length (flat (masked_image image min_distance)) = n.
Proof.
  unfold masked_image, imul_mask. cbn [flat]. rewrite length_map, length_combine.
  rewrite candidates_length. lia.
Qed.

Lemma masked_shape : shape (masked_image image min_distance) = shape image.
Proof. reflexivity. Qed.

Lemma masked_well_shaped : well_shaped image -> well_shaped (masked_image image min_distance).
Proof. unfold well_shaped. rewrite masked_length, masked_shape. tauto. Qed.

Lemma maximum_filter_nth i :
  i < n ->
  nth i (flat (maximum_filter image size)) 0%Q
  = match np_max (window_values image size i) with Some m => m | None => 0%Q end.
Proof.
  intros Hi. unfold maximum_filter. cbn [flat]. rewrite nth_map_seq.
  destruct (Nat.ltb_spec i n); [reflexivity | lia].
Qed.

Lemma candidates_nth i :
  i < n ->
  marked (flat (candidates image min_distance)) i
  = Qeq_bool (nth i (flat image) 0%Q) (nth i (flat (maximum_filter image size)) 0%Q).
Proof.
  intros Hi. unfold marked, candidates, eq_array. cbn [flat].
  rewrite (nth_map_lt _ _ (0%Q, 0%Q) false).
  - rewrite combine_nth by (rewrite maximum_filter_length; reflexivity). reflexivity.
  - rewrite length_combine, maximum_filter_length. lia.
Qed.

Lemma masked_nth i :
  i < n ->
  nth i (flat (masked_image image min_distance)) 0%Q
  = (nth i (flat image) 0 * of_bool (marked (flat (candidates image min_distance)) i))%Q.
Proof.
  intros Hi. unfold masked_image, imul_mask. cbn [flat].
  rewrite (nth_map_lt _ _ (0%Q, false) 0%Q).
  - rewrite combine_nth by (rewrite candidates_length; reflexivity). reflexivity.
  - rewrite length_combine, candidates_length. lia.
Qed.

(** A cell is a candidate exactly when nothing in its window, the
    padding included, exceeds it. *)
Lemma candidate_iff i :
  well_shaped image -> i < n ->
  (marked (flat (candidates image min_distance)) i = true
   <-> forall p, In p (window size (unravel_index i (shape image))) ->
                 (get_constant image 0 p <= nth i (flat image) 0)%Q).
Proof.
  intros Hw Hi. rewrite candidates_nth, maximum_filter_nth by exact Hi.
  pose proof (centre_in_window min_distance (unravel_index i (shape image))) as Hc.
  assert (Hcv : In (nth i (flat image) 0%Q) (window_values image size i)).
  { rewrite <- (get_constant_centre Hw Hi). apply in_map. exact Hc. }
  destruct (np_max (window_values image size i)) as [m|] eqn:Em.
  2:{ destruct (window_values image size i); [contradiction | discriminate]. }
  destruct (np_max_spec _ Em) as [Hin Hmax].
  rewrite Qeq_bool_iff. split.
  - intros Heq p Hp. rewrite Heq. apply Hmax. apply in_map. exact Hp.
  - intros Hall. apply Qle_antisym; [apply Hmax; exact Hcv|].
    unfold window_values in Hin. apply in_map_iff in Hin.
    destruct Hin as [p [<- Hp]]. apply Hall. exact Hp.
Qed.
End MaskedFacts.

(** ** The two paths of _peak_local_max *)

Lemma zeros_nth {A} (l : list A) (j : nat) : nth j (map (fun _ => false) l) false = false.
Proof.
  revert j. induction l as [|a l IH]; intros [|j]; simpl; auto.
Qed.

Lemma zeros_count {A} (l : list A) : count_true (map (fun _ => false) l) = 0.
Proof. induction l as [|a l IH]; simpl; [reflexivity | exact IH]. Qed.

Section PeakPaths.
Variable image : ndarray Q.
Variable min_distance : nat.
Variables threshold_abs threshold_rel : Q.
Variable num_peaks : option nat.
Variable first : Q.
Hypothesis Hfirst : nth_error (flat image) 0 = Some first.

Local Abbreviation masked := (masked_image image min_distance).

Lemma peak_flat_path :
  forallb (fun x => Qeq_bool x first) (flat image) = true ->
  _peak_local_max image min_distance threshold_abs threshold_rel num_peaks
  = inr (zeros_like_bool image).
Proof. intros Hflat. unfold _peak_local_max. rewrite Hfirst, Hflat. reflexivity. Qed.

Lemma peak_general_path :
  well_shaped image ->
  forallb (fun x => Qeq_bool x first) (flat image) = false ->
  exists m cells,
    np_max (flat masked) = Some m /\
    _peak_local_max image min_distance threshold_abs threshold_rel num_peaks
    = inr (mk_ndarray (shape image) cells) /\
    length cells = length (flat image) /\
    (forall j, nth j cells false = true
               <-> In j (kept_cells masked (py_max (float_mul m threshold_rel) threshold_abs)
                                    num_peaks)) /\
    count_true cells
    = length (kept_cells masked (py_max (float_mul m threshold_rel) threshold_abs) num_peaks).
Proof.
  intros Hw Hnonflat.
  assert (Hne : flat masked <> []).
  { intros E. pose proof (masked_length image min_distance) as Hl. rewrite E in Hl.
    destruct (flat image); [discriminate Hfirst | discriminate Hl]. }
  destruct (np_max_nonempty Hne) as [m Hm]. exists m.
  unfold _peak_local_max. rewrite Hfirst, Hnonflat.
  unfold peak_threshold. rewrite Hm.
  set (thr := py_max (float_mul m threshold_rel) threshold_abs).
  rewrite (truncate_cells thr num_peaks (masked_well_shaped min_distance Hw)).
  destruct (@setitem_cells (shape image) (kept_cells masked thr num_peaks)
              (map (fun _ => false) (flat image)))
    as [cells [Hset [Hlen [Hmem Hcount]]]].
  - apply kept_cells_NoDup.
  - intros i Hi. apply kept_cells_incl, in_survivors in Hi. destruct Hi as [Hi _].
    rewrite masked_length in Hi. rewrite length_map. rewrite <- Hw.
    split; [exact Hi|]. split; [exact Hi | apply zeros_nth].
  - exists cells. cbn [zeros_like_bool flat shape]. rewrite masked_shape, Hset.
    split; [reflexivity|]. split; [reflexivity|]. split.
    + rewrite Hlen. apply length_map.
    + split.
      * intros j. rewrite Hmem, zeros_nth. split; [intros [H|H]; [discriminate|exact H] | auto].
      * rewrite Hcount, zeros_count. reflexivity.
Qed.
End PeakPaths.

(** ** What the ranking keeps *)


Lemma peak_count_le (image : ndarray Q) (min_distance : nat) (threshold_abs threshold_rel : Q)
  (k : nat) (mask : ndarray bool) :
  well_shaped image ->
  _peak_local_max image min_distance threshold_abs threshold_rel (Some k) = inr mask ->
  count_true (flat mask) <= k.
Proof.
  intros Hw Hm. destruct (nth_error (flat image) 0) as [first|] eqn:Hfirst.
  2:{ unfold _peak_local_max in Hm. rewrite Hfirst in Hm. discriminate. }
  destruct (forallb (fun x => Qeq_bool x first) (flat image)) eqn:Hflat.
  - rewrite (peak_flat_path _ _ _ _ _ Hfirst Hflat) in Hm. injection Hm as <-.
    unfold zeros_like_bool. cbn [flat]. rewrite zeros_count. lia.
  - destruct (peak_general_path min_distance threshold_abs threshold_rel (Some k)
                Hfirst Hw Hflat) as [m [cells [_ [Hres [_ [_ Hcount]]]]]].
    rewrite Hres in Hm. injection Hm as <-. cbn [flat].
    rewrite Hcount, kept_cells_length. lia.
Qed.

(** ** Running _peak_local_max on a mask *)

Lemma peak_result_shape (image : ndarray Q) (min_distance : nat)
  (threshold_abs threshold_rel : Q) (num_peaks : option nat) (mask : ndarray bool) :
  well_shaped image ->
  _peak_local_max image min_distance threshold_abs threshold_rel num_peaks = inr mask ->
  shape mask = shape image /\ length (flat mask) = length (flat image).
Proof.
  intros Hw Hm. destruct (nth_error (flat image) 0) as [first|] eqn:Hfirst.
  2:{ unfold _peak_local_max in Hm. rewrite Hfirst in Hm. discriminate. }
  destruct (forallb (fun x => Qeq_bool x first) (flat image)) eqn:Hflat.
  - rewrite (peak_flat_path _ _ _ _ _ Hfirst Hflat) in Hm. injection Hm as <-.
    split; [reflexivity | apply length_map].
  - destruct (peak_general_path min_distance threshold_abs threshold_rel num_peaks
                Hfirst Hw Hflat) as [m [cells [_ [Hres [Hlen _]]]]].
    rewrite Hres in Hm. injection Hm as <-. split; [reflexivity | exact Hlen].
Qed.

(** Below the cap nothing is cut. *)
Lemma peak_uncapped (image : ndarray Q) (min_distance : nat)
  (threshold_abs threshold_rel : Q) (k : nat) :
  (forall m, np_max (flat (masked_image image min_distance)) = Some m ->
     length (survivors (masked_image image min_distance)
                       (py_max (float_mul m threshold_rel) threshold_abs)) <= k) ->
  _peak_local_max image min_distance threshold_abs threshold_rel (Some k)
  = _peak_local_max image min_distance threshold_abs threshold_rel None.
Proof.
  intros Hle. unfold _peak_local_max.
  destruct (nth_error (flat image) 0) as [first|]; [|reflexivity].
  destruct (forallb (fun x => Qeq_bool x first) (flat image)); [reflexivity|].
  unfold peak_threshold.
  destruct (np_max (flat (masked_image image min_distance))) as [m|] eqn:Em; [|reflexivity].
  specialize (Hle m eq_refl). unfold truncate, exceeds.
  rewrite argwhere_survivors, length_map.
  destruct (Nat.ltb_spec k (length (survivors (masked_image image min_distance)
                                      (py_max (float_mul m threshold_rel) threshold_abs))));
    [lia | reflexivity].
Qed.

Section MaskGrid.
Variable peaks : ndarray bool.
Variable min_distance : nat.

Local Abbreviation grid := (astype_of_bool peaks : ndarray Q).

Lemma mask_grid_nth j : nth j (flat grid) 0%Q = of_bool (marked (flat peaks) j).
Proof.
  unfold astype_of_bool, marked. cbn [flat].
  exact (map_nth (@of_bool Q _) (flat peaks) false j).
Qed.

Lemma mask_grid_length : length (flat grid) = length (flat peaks).
Proof. apply length_map. Qed.

Lemma mask_grid_le_1 p : (get_constant grid 0 p <= 1)%Q.
Proof.
  unfold get_constant. destruct (in_bounds p (shape grid)).
  - rewrite mask_grid_nth. destruct (marked (flat peaks) _); discriminate.
  - discriminate.
Qed.

(** Masking a 0/1 grid with its candidates changes no value. *)
Lemma mask_grid_masked j :
  well_shaped grid -> j < length (flat peaks) ->
  (nth j (flat (masked_image grid min_distance)) 0 == of_bool (marked (flat peaks) j))%Q.
Proof.
  intros Hw Hj. rewrite <- mask_grid_length in Hj. rewrite masked_nth by exact Hj.
  pose proof (candidate_iff min_distance Hw Hj) as Hc.
  rewrite mask_grid_nth in *. destruct (marked (flat peaks) j) eqn:Hm.
  - replace (marked (flat (candidates grid min_distance)) j) with true.
    + reflexivity.
    + symmetry. apply Hc. intros p _. apply mask_grid_le_1.
  - apply Qmult_0_l.
Qed.
End MaskGrid.

Lemma bool_list_ext (l l' : list bool) :
  length l = length l' ->
  (forall j, nth j l false = true <-> nth j l' false = true) ->
  l = l'.
Proof.
  intros Hlen Hiff. apply (nth_ext _ _ false false Hlen). intros j _.
  specialize (Hiff j). destruct (nth j l false), (nth j l' false); intuition congruence.
Qed.

Lemma ndarray_ext {A} (a b : ndarray A) : shape a = shape b -> flat a = flat b -> a = b.
Proof. destruct a, b. simpl. intros -> ->. reflexivity. Qed.

Section PeakFixedPoint.
Variable peaks : ndarray bool.
Variable min_distance : nat.
Variables threshold_abs threshold_rel : Q.

Local Abbreviation grid := (astype_of_bool peaks : ndarray Q).
Local Abbreviation masked := (masked_image grid min_distance).

(** A mask without a true cell is a constant grid. *)
Lemma peaks_of_empty_mask (num_peaks : option nat) :
  flat peaks <> [] ->
  (forall j, marked (flat peaks) j = false) ->
  _peak_local_max grid min_distance threshold_abs threshold_rel num_peaks = inr peaks.
Proof.
  intros Hne Hnone.
  assert (Hzero : forall x, In x (flat grid) -> x = 0%Q).
  { intros x Hx. apply (In_nth _ _ 0%Q) in Hx. destruct Hx as [j [_ <-]].
    rewrite mask_grid_nth, Hnone. reflexivity. }
  destruct (flat grid) as [|x l] eqn:E.
  { exfalso. apply Hne. apply length_zero_iff_nil.
    rewrite <- mask_grid_length, E. reflexivity. }
  rewrite (@peak_flat_path grid min_distance threshold_abs threshold_rel num_peaks x).
  - f_equal. apply ndarray_ext; [reflexivity|]. unfold zeros_like_bool. cbn [flat].
    apply bool_list_ext; [rewrite length_map; apply mask_grid_length|].
    intros j. rewrite zeros_nth. pose proof (Hnone j) as Hj. unfold marked in Hj.
    rewrite Hj. tauto.
  - rewrite E. reflexivity.
  - apply forallb_forall. intros y Hy. rewrite E in Hy.
    rewrite (Hzero y Hy), (Hzero x (or_introl eq_refl)). reflexivity.
Qed.

Hypothesis Hw : well_shaped grid.
Hypothesis Hlow : (0 <= threshold_rel)%Q \/ (0 <= threshold_abs)%Q.
Hypothesis Hrel : (threshold_rel < 1)%Q.
Hypothesis Habs : (threshold_abs < 1)%Q.

Variables jt jf : nat.
Hypothesis Htrue : marked (flat peaks) jt = true.
Hypothesis Hfalse : marked (flat peaks) jf = false.
Hypothesis Hjf : jf < length (flat peaks).

Lemma mask_grid_not_constant first :
  nth_error (flat grid) 0 = Some first ->
  forallb (fun x => Qeq_bool x first) (flat grid) = false.
Proof.
  intros _. destruct (forallb _ (flat grid)) eqn:Hall; [|reflexivity]. exfalso.
  rewrite forallb_forall in Hall.
  assert (Ht : (nth jt (flat grid) 0 == first)%Q).
  { apply Qeq_bool_iff, Hall, nth_In. rewrite mask_grid_length.
    apply nth_true_lt. exact Htrue. }
  assert (Hf : (nth jf (flat grid) 0 == first)%Q).
  { apply Qeq_bool_iff, Hall, nth_In. rewrite mask_grid_length. exact Hjf. }
  rewrite mask_grid_nth in Ht, Hf. rewrite Htrue in Ht. rewrite Hfalse in Hf.
  rewrite <- Hf in Ht. discriminate.
Qed.

Lemma mask_grid_max m : np_max (flat masked) = Some m -> (m == 1)%Q.
Proof.
  intros Hm. destruct (np_max_spec _ Hm) as [Hin Hmax].
  pose proof (nth_true_lt _ _ Htrue) as Hjt.
  apply Qle_antisym.
  - apply (In_nth _ _ 0%Q) in Hin. destruct Hin as [j [Hj <-]].
    rewrite masked_length, mask_grid_length in Hj.
    rewrite (mask_grid_masked min_distance Hw Hj).
    destruct (marked (flat peaks) j); discriminate.
  - apply Qle_trans with (y := nth jt (flat masked) 0%Q).
    + rewrite (mask_grid_masked min_distance Hw Hjt), Htrue. apply Qle_refl.
    + apply Hmax. apply nth_In. rewrite masked_length, mask_grid_length. exact Hjt.
Qed.

Lemma mask_grid_survivors m j :
  np_max (flat masked) = Some m ->
  (In j (survivors masked (py_max (float_mul m threshold_rel) threshold_abs))
   <-> marked (flat peaks) j = true).
Proof.
  intros Hm. pose proof (mask_grid_max Hm) as Hone.
  destruct (py_max_spec (float_mul m threshold_rel) threshold_abs) as [Hsel [Hge_rel Hge_abs]].
  assert (Hprod : (float_mul m threshold_rel == threshold_rel)%Q).
  { rewrite (float_mul_compat Hone (Qeq_refl threshold_rel)). apply float_mul_1_l. }
  set (thr := py_max (float_mul m threshold_rel) threshold_abs) in *.
  rewrite Hprod in Hge_rel.
  assert (Hthr_lt : (thr < 1)%Q).
  { destruct Hsel as [-> | ->]; [rewrite Hprod|]; assumption. }
  assert (Hthr_ge : (0 <= thr)%Q).
  { destruct Hlow as [H|H]; eapply Qle_trans; eauto. }
  rewrite in_survivors, masked_length, mask_grid_length. split.
  - intros [Hj Hgt]. rewrite (mask_grid_masked min_distance Hw Hj) in Hgt.
    destruct (marked (flat peaks) j); [reflexivity|].
    exfalso. apply (Qlt_not_le _ _ Hgt). exact Hthr_ge.
  - intros Hj. pose proof (nth_true_lt _ _ Hj) as Hlt. split; [exact Hlt|].
    rewrite (mask_grid_masked min_distance Hw Hlt), Hj. exact Hthr_lt.
Qed.

Lemma peaks_of_mask_uncapped :
  _peak_local_max grid min_distance threshold_abs threshold_rel None = inr peaks /\
  forall m, np_max (flat masked) = Some m ->
    length (survivors masked (py_max (float_mul m threshold_rel) threshold_abs))
    = count_true (flat peaks).
Proof.
  destruct (nth_error (flat grid) 0) as [first|] eqn:Hfirst.
  2:{ exfalso. apply nth_error_None in Hfirst. rewrite mask_grid_length in Hfirst. lia. }
  destruct (peak_general_path min_distance threshold_abs threshold_rel None Hfirst Hw
              (mask_grid_not_constant Hfirst))
    as [m [cells [Hm [Hres [Hlen [Hmem Hcount]]]]]].
  assert (Hcells : cells = flat peaks).
  { apply bool_list_ext; [rewrite Hlen; apply mask_grid_length|].
    intros j. rewrite Hmem. simpl. apply mask_grid_survivors. exact Hm. }
  split.
  - rewrite Hres. f_equal. apply ndarray_ext; [reflexivity | exact Hcells].
  - intros m' Hm'. rewrite Hm in Hm'. injection Hm' as <-.
    rewrite <- Hcells, Hcount. reflexivity.
Qed.
End PeakFixedPoint.

(** A mask returned by [_peak_local_max], cast back to numbers, gives the
    same mask again when the threshold it meets lies in [0, 1) and the
    mask is not true everywhere. *)
Lemma peaks_fixed_point (image : ndarray Q) (min_distance : nat)
  (threshold_abs threshold_rel : Q) (num_peaks : option nat) (peaks : ndarray bool) :
  well_shaped image ->
  _peak_local_max image min_distance threshold_abs threshold_rel num_peaks = inr peaks ->
  (0 <= threshold_rel)%Q \/ (0 <= threshold_abs)%Q ->
  (threshold_rel < 1)%Q -> (threshold_abs < 1)%Q ->
  (exists j, j < length (flat peaks) /\ marked (flat peaks) j = false) ->
  _peak_local_max (astype_of_bool peaks) min_distance threshold_abs threshold_rel num_peaks
  = inr peaks.
Proof.
  intros Hw Hres Hlow Hrel Habs [jf [Hjf Hfalse]].
  destruct (peak_result_shape _ _ _ _ Hw Hres) as [Hsh Hlen].
  assert (Hwg : well_shaped (astype_of_bool peaks : ndarray Q)).
  { unfold well_shaped in *. rewrite mask_grid_length. cbn [astype_of_bool shape].
    rewrite Hsh, Hlen. exact Hw. }
  destruct (in_dec bool_dec true (flat peaks)) as [Hin|Hnot].
  - apply (In_nth _ _ false) in Hin. destruct Hin as [jt [_ Htrue]].
    destruct (peaks_of_mask_uncapped min_distance Hwg Hlow Hrel Habs jt Htrue Hfalse Hjf)
      as [Hnone Hsurv].
    destruct num_peaks as [k|]; [|exact Hnone].
    rewrite peak_uncapped; [exact Hnone|].
    intros m Hm. rewrite (Hsurv m Hm). apply (peak_count_le _ _ _ _ Hw Hres).
  - apply peaks_of_empty_mask.
    + intros E. rewrite E in Hjf. simpl in Hjf. lia.
    + intros j. destruct (marked (flat peaks) j) eqn:Hj; [|reflexivity].
      exfalso. apply Hnot. rewrite <- Hj. apply nth_In. apply nth_true_lt. exact Hj.
Qed.
End PeakStages.

(** ** The heap: what a computation leaves untouched *)

Lemma frame_ret {X} (n0 : nat) (x : X) (post : X -> Prop) :
  post x -> frame n0 (ret x) post.
Proof.
  intros Hx h _. simpl. split; [lia|]. split; [reflexivity|].
  intros y E. injection E as <-. exact Hx.
Qed.

Lemma frame_raise {X} (n0 : nat) (e : exception) (post : X -> Prop) :
  frame n0 (raise e) post.
Proof.
  intros h _. simpl. split; [lia|]. split; [reflexivity|]. intros y E. discriminate.
Qed.

Lemma frame_weaken {X} (n0 : nat) (c : M X) (P Q : X -> Prop) :
  frame n0 c P -> (forall x, P x -> Q x) -> frame n0 c Q.
Proof.
  intros Hc HPQ h Hh. destruct (Hc h Hh) as [Hlen [Hsame Hpost]].
  split; [exact Hlen|]. split; [exact Hsame|]. intros x E. apply HPQ, Hpost, E.
Qed.

Lemma frame_bind {X Y} (n0 : nat) (c : M X) (k : X -> M Y)
  (P : X -> Prop) (Q : Y -> Prop) :
  frame n0 c P -> (forall x, P x -> frame n0 (k x) Q) -> frame n0 (bind c k) Q.
Proof.
  intros Hc Hk h Hh. destruct (Hc h Hh) as [Hlen [Hsame Hpost]].
  unfold bind. destruct (c h) as [h' [e|x]]; simpl in *.
  - split; [exact Hlen|]. split; [exact Hsame|]. intros y E. discriminate.
  - destruct (Hk x (Hpost x eq_refl) h') as [Hlen' [Hsame' Hpost']]; [lia|].
    split; [lia|]. split; [|exact Hpost'].
    intros r Hr. rewrite Hsame' by exact Hr. apply Hsame. exact Hr.
Qed.

Lemma frame_alloc (n0 : nat) (o : object) : frame n0 (alloc o) (fun r => n0 <= r).
Proof.
  intros h Hh. unfold alloc. simpl. split; [rewrite length_app; simpl; lia|]. split.
  - intros r Hr. apply nth_error_app1. lia.
  - intros x E. injection E as <-. exact Hh.
Qed.

Lemma frame_read (n0 : nat) (r : ref) : frame n0 (read r) (fun _ => True).
Proof.
  intros h _. unfold read. destruct (nth_error h r); simpl;
    (split; [lia|]; split; [reflexivity | intros; exact I]).
Qed.

Lemma nth_error_setitem_other {A} (a a' : list A) (i j : nat) (v : A) :
  setitem a i v = Some a' -> j <> i -> nth_error a' j = nth_error a j.
Proof.
  unfold setitem. destruct (Nat.ltb_spec i (length a)) as [Hlt|Hge]; [|discriminate].
  intros E Hne. assert (Ea : a' = firstn i a ++ v :: skipn (S i) a) by congruence.
  clear E. subst a'. destruct (Nat.lt_ge_cases j i) as [Hji|Hji].
  - rewrite nth_error_app1 by (rewrite length_firstn; lia).
    rewrite nth_error_firstn. destruct (Nat.ltb_spec j i); [reflexivity | lia].
  - rewrite nth_error_app2 by (rewrite length_firstn; lia).
    rewrite length_firstn. replace (j - Nat.min i (length a)) with (S (j - S i)) by lia.
    cbn [nth_error]. rewrite nth_error_skipn. f_equal. lia.
Qed.

Lemma frame_write (n0 : nat) (r : ref) (o : object) :
  n0 <= r -> frame n0 (write r o) (fun _ => True).
Proof.
  intros Hr h _. unfold write. destruct (setitem h r o) as [h'|] eqn:E; simpl.
  - destruct (nth_setitem h r o o E) as [_ [Hlen _]].
    split; [lia|]. split; [|intros; exact I].
    intros r' Hr'. apply nth_error_setitem_other with (i := r) (v := o); [exact E | lia].
  - split; [lia|]. split; [reflexivity | intros; exact I].
Qed.

Lemma frame_read_float (n0 : nat) (r : ref) : frame n0 (read_float r) (fun _ => True).
Proof.
  unfold read_float. apply frame_bind with (P := fun _ => True); [apply frame_read|].
  intros [a|a|a] _; try apply frame_raise. apply frame_ret. exact I.
Qed.

Lemma frame_read_bool (n0 : nat) (r : ref) : frame n0 (read_bool r) (fun _ => True).
Proof.
  unfold read_bool. apply frame_bind with (P := fun _ => True); [apply frame_read|].
  intros [a|a|a] _; try apply frame_raise. apply frame_ret. exact I.
Qed.

Lemma frame_read_int (n0 : nat) (r : ref) : frame n0 (read_int r) (fun _ => True).
Proof.
  unfold read_int. apply frame_bind with (P := fun _ => True); [apply frame_read|].
  intros [a|a|a] _; try apply frame_raise. apply frame_ret. exact I.
Qed.

(** The steps of a straight-line computation, one rule each. *)
Ltac frame_step :=
  first
    [ apply frame_raise
    | apply frame_ret; exact I
    | apply frame_bind with (P := fun _ : ndarray Q => True); [apply frame_read_float|]
    | apply frame_bind with (P := fun _ : ndarray bool => True); [apply frame_read_bool|]
    | apply frame_bind with (P := fun _ : ndarray nat => True); [apply frame_read_int|]
    | apply frame_bind with (P := fun _ : object => True); [apply frame_read|]
    | apply frame_bind with (P := fun _ : unit => True);
        [apply frame_write; assumption|]
    | eapply frame_bind; [apply frame_alloc|]
    | eapply frame_weaken; [apply frame_alloc | intros; exact I] ].

Lemma largest_connected_component_ref_frame (n0 : nat) (volume : ref) :
  frame n0 (largest_connected_component_ref volume) (fun _ => True).
Proof.
  unfold largest_connected_component_ref.
  frame_step. intros v _. frame_step. intros labels Hlabels. cbv zeta.
  destruct (snd (label_object v) =? 0); [frame_step|].
  destruct (snd (label_object v) =? 1); [frame_step|].
  frame_step. intros l _. frame_step. intros label_count Hcount.
  frame_step. intros c _.
  destruct (setitem (flat c) 0 0); [|frame_step].
  frame_step. intros _ _. frame_step. intros c' _.
  destruct (argmax (flat c')); frame_step.
Qed.

Lemma peak_local_max_ref_frame {ties : TieOrder} (n0 : nat) (image : ref) (min_distance : nat)
  (threshold_abs threshold_rel : Q) (num_peaks : option nat) :
  frame n0 (_peak_local_max_ref image min_distance threshold_abs threshold_rel num_peaks)
        (fun _ => True).
Proof.
  unfold _peak_local_max_ref.
  frame_step. intros a _. frame_step. intros out Hout.
  destruct (nth_error (flat a) 0) as [first|]; [|frame_step].
  destruct (forallb (fun x => Qeq_bool x first) (flat a)); [frame_step|].
  frame_step. intros copy Hcopy. frame_step. intros a' _. cbv zeta.
  frame_step. intros _ _. frame_step. intros a'' _.
  destruct (np_max (flat a'')); [|frame_step].
  frame_step. intros o _.
  destruct (setitem_coords (flat o) (shape o) _); [|frame_step].
  frame_step. intros _ _. frame_step.
Qed.

(** ** The computations on the heap return what the functions return *)

Lemma bind_alloc {Y} (o : object) (k : ref -> M Y) (h : heap) :
  bind (alloc o) k h = k (length h) (h ++ [o]).
Proof. reflexivity. Qed.

Lemma bind_read {Y} (r : ref) (o : object) (k : object -> M Y) (h : heap) :
  nth_error h r = Some o -> bind (read r) k h = k o h.
Proof. intros E. unfold bind, read. rewrite E. reflexivity. Qed.

Lemma bind_read_float {Y} (r : ref) (a : ndarray Q) (k : ndarray Q -> M Y) (h : heap) :
  nth_error h r = Some (FloatArray a) -> bind (read_float r) k h = k a h.
Proof. intros E. unfold bind, read_float, bind, read. rewrite E. reflexivity. Qed.

Lemma bind_read_bool {Y} (r : ref) (a : ndarray bool) (k : ndarray bool -> M Y) (h : heap) :
  nth_error h r = Some (BoolArray a) -> bind (read_bool r) k h = k a h.
Proof. intros E. unfold bind, read_bool, bind, read. rewrite E. reflexivity. Qed.

Lemma bind_read_int {Y} (r : ref) (a : ndarray nat) (k : ndarray nat -> M Y) (h : heap) :
  nth_error h r = Some (IntArray a) -> bind (read_int r) k h = k a h.
Proof. intros E. unfold bind, read_int, bind, read. rewrite E. reflexivity. Qed.

Lemma bind_write {Y} (r : ref) (o : object) (k : unit -> M Y) (h h' : heap) :
  setitem h r o = Some h' -> bind (write r o) k h = k tt h'.
Proof. intros E. unfold bind, write. rewrite E. reflexivity. Qed.

Lemma nth_error_snoc {A} (l : list A) (x : A) : nth_error (l ++ [x]) (length l) = Some x.
Proof. rewrite nth_error_app2 by lia. rewrite Nat.sub_diag. reflexivity. Qed.

Lemma setitem_snoc {A} (l : list A) (x y : A) :
  setitem (l ++ [x]) (length l) y = Some (l ++ [y]).
Proof.
  unfold setitem. rewrite length_app. cbn [length].
  destruct (Nat.ltb_spec (length l) (length l + 1)); [|lia].
  rewrite firstn_app, firstn_all, Nat.sub_diag. cbn [firstn]. rewrite app_nil_r.
  rewrite skipn_all2 by (rewrite length_app; cbn [length]; lia). reflexivity.
Qed.

Lemma setitem_app_l {A} (l l' t : list A) (i : nat) (v : A) :
  setitem l i v = Some l' -> setitem (l ++ t) i v = Some (l' ++ t).
Proof.
  unfold setitem. destruct (Nat.ltb_spec i (length l)) as [Hlt|]; [|discriminate].
  intros E. assert (El : l' = firstn i l ++ v :: skipn (S i) l) by congruence.
  clear E. subst l'. rewrite length_app.
  destruct (Nat.ltb_spec i (length l + length t)); [|lia].
  rewrite firstn_app, skipn_app.
  replace (i - length l) with 0 by lia. replace (S i - length l) with 0 by lia.
  cbn [firstn skipn]. rewrite app_nil_r, <- app_assoc. reflexivity.
Qed.

Theorem peak_local_max_ref_pure {ties : TieOrder} (h : heap) (image : ref) (a : ndarray Q)
  (min_distance : nat) (threshold_abs threshold_rel : Q) (num_peaks : option nat) :
  nth_error h image = Some (FloatArray a) ->
  let run := _peak_local_max_ref image min_distance threshold_abs threshold_rel num_peaks h in
  match _peak_local_max a min_distance threshold_abs threshold_rel num_peaks with
  | inl e => snd run = inl e
  | inr mask => exists out, snd run = inr out /\ nth_error (fst run) out = Some (BoolArray mask)
  end.
Proof.
  intros Himage. cbv zeta. unfold _peak_local_max_ref, _peak_local_max.
  erewrite bind_read_float by exact Himage. rewrite bind_alloc.
  destruct (nth_error (flat a) 0) as [first|]; [|reflexivity].
  destruct (forallb (fun x => Qeq_bool x first) (flat a)).
  { exists (length h). split; [reflexivity | apply nth_error_snoc]. }
  rewrite bind_alloc.
  erewrite bind_read_float by apply nth_error_snoc.
  erewrite bind_write by apply setitem_snoc.
  erewrite bind_read_float by apply nth_error_snoc.
  change (imul_mask a (eq_array a (maximum_filter a (2 * min_distance + 1))))
    with (masked_image a min_distance).
  unfold peak_threshold.
  destruct (np_max (flat (masked_image a min_distance))) as [m|]; [|reflexivity].
  erewrite bind_read_bool
    by (rewrite nth_error_app1 by (rewrite length_app; simpl; lia); apply nth_error_snoc).
  destruct (setitem_coords _ _ _) as [cells|]; [|reflexivity].
  erewrite bind_write by (apply setitem_app_l; apply setitem_snoc).
  exists (length h). split; [reflexivity|]. simpl fst.
  rewrite nth_error_app1 by (rewrite length_app; simpl; lia). apply nth_error_snoc.
Qed.

Lemma largest_connected_component_object_eq (o : object) :
  largest_connected_component_object o
  = (let (labels, label_nb) := label_object o in
     if label_nb =? 0 then inl ValueError_no_components
     else if label_nb =? 1 then inr (astype_bool_object o)
     else select_largest labels).
Proof. destruct o; reflexivity. Qed.

Theorem largest_connected_component_ref_pure (h : heap) (volume : ref) (o : object) :
  nth_error h volume = Some o ->
  let run := largest_connected_component_ref volume h in
  match largest_connected_component_object o with
  | inl e => snd run = inl e
  | inr mask => exists out, snd run = inr out /\ nth_error (fst run) out = Some (BoolArray mask)
  end.
Proof.
  intros Hvolume. cbv zeta. unfold largest_connected_component_ref.
  erewrite bind_read by exact Hvolume. rewrite bind_alloc.
  rewrite largest_connected_component_object_eq.
  destruct (label_object o) as [labels nb]. cbn [fst snd].
  destruct (nb =? 0); [reflexivity|].
  destruct (nb =? 1).
  { eexists. split; [reflexivity | apply nth_error_snoc]. }
  erewrite bind_read_int by apply nth_error_snoc. rewrite bind_alloc.
  erewrite bind_read_int by apply nth_error_snoc.
  unfold select_largest. cbn [flat shape].
  destruct (setitem (bincount (flat labels)) 0 0) as [cells|]; [|reflexivity].
  erewrite bind_write by apply setitem_snoc.
  erewrite bind_read_int by apply nth_error_snoc. cbn [flat].
  destruct (argmax cells) as [k|]; [|reflexivity].
  eexists. split; [reflexivity | apply nth_error_snoc].
Qed.

(** * Claims about largest_connected_component *)

Section LargestClaims.
Context {A : Type} `{Dtype A}.
Variable volume : ndarray A.

Local Abbreviation lab := (fun j => nth j (flat (fst (ndimage_label volume))) 0).
Local Abbreviation feat := (features volume).

(** C1 (amended): [largest_connected_component] labels the regions with
    the default structure of [ndimage.label]: neighbours are the cells
    whose coordinates differ by exactly one on exactly one axis (6 in
    3-D, no diagonal).  Two non-zero cells carry the same label exactly
    when a chain of such neighbours inside the non-zero cells links
    them, and a returned mask is true exactly on the cells linked to one
    non-zero cell: one maximal region. *)
Theorem largest_component_face_region (mask : ndarray bool) :
  largest_connected_component volume = inr mask ->
  (forall i j, neighbours 1 (shape volume) i j = true
               <-> unravel_index i (shape volume) = unravel_index j (shape volume)
                   \/ face_adjacent (unravel_index i (shape volume))
                                    (unravel_index j (shape volume))) /\
  (forall i j, is_feat feat i = true ->
               (lab i = lab j <-> face_connected volume i j)) /\
  exists seed, is_feat feat seed = true /\
               forall j, marked (flat mask) j = true <-> face_connected volume seed j.
Proof.
  intros Hm. split; [intros i j; apply neighbours_face|]. split.
  - intros i j Hi. apply (label_eq_iff (ndimage_label_inv volume)). exact Hi.
  - apply (largest_region volume Hm).
Qed.

(** C2: a grid without a non-zero cell makes
    [largest_connected_component] raise the "no connected components"
    ValueError, and a grid with a non-zero cell makes it return a mask:
    the call ends in that error exactly when no cell is non-zero. *)
Theorem no_components_error :
  match largest_connected_component volume with
  | inl e => e = ValueError_no_components /\ forall j, is_feat feat j = false
  | inr _ => exists j, is_feat feat j = true
  end.
Proof.
  pose proof (ndimage_label_inv volume) as Hinv.
  unfold largest_connected_component.
  destruct (ndimage_label volume) as [[sh ls] nb]. simpl in Hinv.
  destruct (Nat.eqb_spec nb 0) as [E0|E0].
  - split; [reflexivity|]. apply (nb_zero_iff Hinv). exact E0.
  - assert (Hex : exists j, is_feat feat j = true).
    { destruct (first_cell Hinv (l := 1)) as [r [_ [Hf _]]]; [lia|]. exists r. exact Hf. }
    destruct (Nat.eqb_spec nb 1) as [E1|E1]; [exact Hex|].
    destruct (select_largest_spec Hinv sh) as [k [Hsel _]]; [lia|].
    rewrite Hsel. exact Hex.
Qed.

(** C3 (amended): when the non-zero cells form exactly one region of the
    connectivity the code labels with (neighbours share a face), the
    call returns the grid cast to boolean, and the general path (size
    table, background count forced to zero, argmax) applied to the same
    labelling returns that very mask. *)
Theorem single_component_shortcut :
  (exists seed, is_feat feat seed = true /\
                forall j, is_feat feat j = true -> face_connected volume seed j) ->
  largest_connected_component volume = inr (astype_bool volume) /\
  select_largest (fst (ndimage_label volume)) = inr (astype_bool volume).
Proof.
  intros Hone. destruct (one_region_shortcut Hone) as [Hnb Hshort].
  split; [exact Hshort|].
  pose proof (ndimage_label_inv volume) as Hinv.
  pose proof (ndimage_label_eq volume) as El.
  destruct (ndimage_label volume) as [[sh ls] nb]. simpl in Hinv, Hnb. subst nb.
  assert (Hsh : sh = shape volume) by (injection El as -> _; reflexivity).
  subst sh. simpl fst.
  destruct (select_largest_spec Hinv (shape volume)) as [k [Hsel [Hk _]]]; [lia|].
  rewrite Hsel. replace k with 1 by lia. unfold eq_scalar, astype_bool. simpl.
  do 2 f_equal. apply (nth_ext _ _ false false).
  - rewrite !length_map. rewrite (inv_length Hinv). apply length_map.
  - intros j _. rewrite nth_map_eqb by lia.
    change (nth j (map nonzero (flat volume)) false) with (is_feat feat j).
    pose proof (label_nonzero_iff Hinv j) as Hnz. pose proof (inv_bound Hinv j) as Hb.
    simpl in Hnz. destruct (is_feat feat j).
    + apply Nat.eqb_eq. assert (nth j ls 0 <> 0) by (apply Hnz; reflexivity). lia.
    + apply Nat.eqb_neq. intros E. assert (false = true) by (apply Hnz; lia). discriminate.
Qed.

End LargestClaims.

Lemma largest_component_face_region_witness :
  (forall i j, neighbours 1 [2; 2] i j = true
               <-> unravel_index i [2; 2] = unravel_index j [2; 2]
                   \/ face_adjacent (unravel_index i [2; 2]) (unravel_index j [2; 2])) /\
  (forall i j, is_feat (features diagonal_grid) i = true ->
               (nth i (flat (fst (ndimage_label diagonal_grid))) 0
                = nth j (flat (fst (ndimage_label diagonal_grid))) 0
                <-> face_connected diagonal_grid i j)) /\
  exists seed, is_feat (features diagonal_grid) seed = true /\
               forall j, marked [true; false; false; false] j = true
                         <-> face_connected diagonal_grid seed j.
Proof.
  apply (largest_component_face_region diagonal_grid
           (mask := mk_ndarray [2; 2] [true; false; false; false])).
  vm_compute. reflexivity.
Defined.

(** The claim C1 as it is stated fails on the 2x2 grid with its diagonal
    set: the two non-zero cells have coordinates (0,0) and (1,1), which
    differ by one on both axes, yet the returned mask holds the first
    only, so it is no region of the full connectivity. *)
Lemma largest_component_not_full_region :
  largest_connected_component diagonal_grid
  = inr (mk_ndarray [2; 2] [true; false; false; false]) /\
  spec_neighbours (shape diagonal_grid) 0 3 = true /\
  ~ (forall mask, largest_connected_component diagonal_grid = inr mask ->
       exists seed, is_feat (features diagonal_grid) seed = true /\
                    forall j, marked (flat mask) j = true
                              <-> full_connected diagonal_grid seed j).
Proof.
  split; [vm_compute; reflexivity|]. split; [vm_compute; reflexivity|].
  intros Hclaim. destruct (Hclaim _ eq_refl) as [seed [Hs Hj]].
  assert (H0 : full_connected diagonal_grid seed 0) by (apply Hj; reflexivity).
  assert (H3 : full_connected diagonal_grid seed 3).
  { apply connected_step with (j := 0); [exact H0 | reflexivity | reflexivity]. }
  apply Hj in H3. discriminate.
Qed.

(** The claim C3 as it is stated fails on the same grid: its two
    non-zero cells are diagonal neighbours, so they form exactly one
    connected component as the specification defines it, yet the call
    returns the first cell alone, not the grid cast to boolean. *)
Lemma one_component_not_returned :
  (exists seed, is_feat (features diagonal_grid) seed = true /\
                forall j, is_feat (features diagonal_grid) j = true ->
                          full_connected diagonal_grid seed j) /\
  largest_connected_component diagonal_grid
  = inr (mk_ndarray [2; 2] [true; false; false; false]) /\
  astype_bool diagonal_grid = mk_ndarray [2; 2] [true; false; false; true] /\
  largest_connected_component diagonal_grid <> inr (astype_bool diagonal_grid).
Proof.
  split; [|split; [vm_compute; reflexivity|split; [reflexivity|]]].
  - exists 0. split; [reflexivity|]. intros j Hj.
    assert (H0 : full_connected diagonal_grid 0 0) by (apply connected_refl; reflexivity).
    destruct j as [|[|[|[|j]]]]; try discriminate Hj.
    + exact H0.
    + apply connected_step with (j := 0); [exact H0 | reflexivity | reflexivity].
    + unfold is_feat in Hj. simpl in Hj. destruct j; discriminate.
  - vm_compute. discriminate.
Qed.

Lemma single_component_shortcut_witness :
  largest_connected_component bar_grid = inr (astype_bool bar_grid) /\
  select_largest (fst (ndimage_label bar_grid)) = inr (astype_bool bar_grid).
Proof.
  apply (single_component_shortcut (volume := bar_grid)).
  exists 0. split; [reflexivity|]. intros j Hj.
  unfold face_connected. apply flood_spec; [reflexivity|].
  destruct j as [|[|[|j]]]; try reflexivity.
  unfold is_feat in Hj. simpl in Hj. destruct j; discriminate.
Defined.

(** * Claims about _peak_local_max *)



Section PeakClaims.
Context {ties : TieOrder}.
Variable image : ndarray Q.
Variable min_distance : nat.
Variables threshold_abs threshold_rel : Q.

Local Abbreviation n := (length (flat image)).
Local Abbreviation masked := (masked_image image min_distance).
Local Abbreviation candidate := (marked (flat (candidates image min_distance))).
Local Abbreviation flattened :=
  (fun j => if candidate j then nth j (flat image) 0%Q else 0%Q).






(** C6 (amended): on every grid with at least one cell in which all the
    cells hold the same value, [_peak_local_max] returns the all-false
    mask, whatever [min_distance], the thresholds and [num_peaks] are,
    and raises nothing. *)
Theorem constant_grid_no_peaks (num_peaks : option nat) :
  flat image <> [] ->
  constant_grid image ->
  _peak_local_max image min_distance threshold_abs threshold_rel num_peaks
  = inr (zeros_like_bool image) /\
  forall j, marked (flat (zeros_like_bool image)) j = false.
Proof.
  intros Hne Hconst. split; [|intros j; apply zeros_nth].
  destruct (flat image) as [|x l] eqn:E; [congruence|].
  apply peak_flat_path with (first := x); [rewrite E; reflexivity|].
  rewrite E. apply forallb_forall. intros y Hy. apply Qeq_bool_iff.
  apply (In_nth _ _ 0%Q) in Hy. destruct Hy as [j [Hj <-]].
  specialize (Hconst j 0). rewrite E in Hconst. apply Hconst; [exact Hj | simpl; lia].
Qed.

End PeakClaims.

(** ** The claims at concrete grids *)

Section PeakExamples.
Existing Instance index_order.

(** The products of line 151 on floats: [0.1] is
    [3602879701896397 / 2^55]; [3 * 0.1] is a tie between two floats and
    goes to [0.30000000000000004], above the exact product; [0.1 * 0.2]
    is [0.020000000000000004]; [5e-324 * 0.75] goes back to [5e-324] and
    [5e-324 * 0.5] to 0; [2^1000 * 2^100] is [inf]. *)
Example product_rounds_up :
  (default_rel == 3602879701896397 # 2 ^ 55)%Q /\
  (3 * default_rel < nth 1 (flat rounding_grid) 0)%Q /\
  (float_mul 3 default_rel == nth 1 (flat rounding_grid) 0)%Q /\
  (float_mul default_rel (float_literal (2 # 10))
   == float_literal (20000000000000004 # 1000000000000000000))%Q /\
  (float_mul (1 # 2 ^ 1074) (3 # 4) == 1 # 2 ^ 1074)%Q /\
  (float_mul (1 # 2 ^ 1074) (1 # 2) == 0)%Q /\
  (float_mul (inject_Z (2 ^ 1000)) (inject_Z (2 ^ 100)) == infinity)%Q.
Proof. repeat split; vm_compute; reflexivity. Qed.

(** On a sample of pairs (ties, subnormal results, underflow, overflow)
    [float_mul] is the product of the kernel's binary64 numbers. *)
Example float_mul_is_the_binary64_product :
  forallb agrees_on sample_products = true.
Proof. vm_compute. reflexivity. Qed.

(** So cell 1 of [0, 0.30000000000000004, 0, 0, 3, 0] equals the
    threshold and is no peak, with or without a cap, and the smallest
    positive float is no peak next to 0 with [threshold_rel = 0.75]. *)
Example rounded_threshold_excludes :
  _peak_local_max rounding_grid 1 0%Q default_rel None = inr rounding_peak /\
  _peak_local_max rounding_grid 1 0%Q default_rel (Some 2) = inr rounding_peak /\
  _peak_local_max tiny_grid 1 0%Q (3 # 4)%Q None = inr (mk_ndarray [2] [false; false]).
Proof. repeat split; vm_compute; reflexivity. Qed.






(** Under a negative threshold the cells flattened to 0 pass it too and
    rank above a negative candidate: of the five cells of
    [5, -2, -1, -2, 5] above the threshold -5, a cap of four drops the
    candidate in the middle and keeps the two cells that are none. *)
Example flattened_cells_outrank_a_candidate :
  flat (candidates valley_grid 1) = [true; false; true; false; true] /\
  flat (masked_image valley_grid 1) = map inject_Z [5; 0; -1; 0; 5]%Z /\
  (exists thr, peak_threshold (masked_image valley_grid 1) (- (5))%Q (- (1))%Q = Some thr /\
               (thr == - (5))%Q) /\
  _peak_local_max valley_grid 1 (- (5))%Q (- (1))%Q (Some 4)
  = inr (mk_ndarray [5] [true; true; false; true; true]).
Proof.
  split; [vm_compute; reflexivity|]. split; [vm_compute; reflexivity|].
  split; [|vm_compute; reflexivity].
  eexists. split; vm_compute; reflexivity.
Qed.

(** The examples of the specification on the line [0,0,5,0,0,0,0,3,0,0]. *)
Example line_two_peaks :
  _peak_local_max line_grid 1 0%Q 0%Q None = inr line_peaks.
Proof. vm_compute. reflexivity. Qed.

Example line_one_peak_kept :
  _peak_local_max line_grid 1 0%Q 0%Q (Some 1) = inr line_top_peak.
Proof. vm_compute. reflexivity. Qed.

Example line_high_threshold :
  _peak_local_max line_grid 1 0%Q (float_literal (9 # 10)) None = inr line_top_peak.
Proof. vm_compute. reflexivity. Qed.

(** The caller's line is still in the heap after the call, next to the
    mask returned and to the copy that was masked in place. *)
Example line_on_the_heap :
  _peak_local_max_ref 0 1 0%Q 0%Q None [FloatArray line_grid]
  = ([FloatArray line_grid; BoolArray line_peaks; FloatArray line_masked], inr 1).
Proof. vm_compute. reflexivity. Qed.
End PeakExamples.

(** Which of three equal peaks a cap of two keeps depends on the order
    the sort leaves them in. *)
Example ties_follow_the_sort :
  @_peak_local_max index_order comb_grid 1 0%Q 0%Q (Some 2)
  = inr (mk_ndarray [5] [false; false; true; false; true]) /\
  @_peak_local_max reverse_order comb_grid 1 0%Q 0%Q (Some 2)
  = inr (mk_ndarray [5] [true; false; true; false; false]).
Proof. split; vm_compute; reflexivity. Qed.

(** * Claims about both functions *)

(** C8 (amended): [largest_connected_component] applied to a mask it
    returned returns that mask.  [_peak_local_max] applied, with the same
    parameters, to a mask it returned (cast back to numbers) returns that
    mask provided the larger of [threshold_rel] and [threshold_abs] lies
    in [0, 1) and the mask is not true on every cell. *)
Theorem outputs_are_fixed_points {ties : TieOrder} {A} `{Dtype A} (volume : ndarray A)
  (component : ndarray bool) (image : ndarray Q) (min_distance : nat)
  (threshold_abs threshold_rel : Q) (num_peaks : option nat) (peaks : ndarray bool) :
  largest_connected_component volume = inr component ->
  well_shaped image ->
  _peak_local_max image min_distance threshold_abs threshold_rel num_peaks = inr peaks ->
  (0 <= threshold_rel)%Q \/ (0 <= threshold_abs)%Q ->
  (threshold_rel < 1)%Q -> (threshold_abs < 1)%Q ->
  (exists j, j < length (flat peaks) /\ marked (flat peaks) j = false) ->
  largest_connected_component component = inr component /\
  _peak_local_max (astype_of_bool peaks) min_distance threshold_abs threshold_rel num_peaks
  = inr peaks.
Proof.
  intros Hcomp Hw Hpeaks Hlow Hrel Habs Hnot_all. split.
  - apply (largest_idempotent volume Hcomp).
  - apply peaks_fixed_point with (image := image); assumption.
Qed.

(** C9: neither function changes an array that exists when it is called,
    the grid it is given in particular, whether it returns or raises: every
    object of the heap before the call is in the heap after it, unchanged.
    The in-place steps of the functions overwrite arrays allocated during
    the call. *)
Theorem inputs_not_mutated {ties : TieOrder} (h : heap) (volume image : ref)
  (min_distance : nat)
  (threshold_abs threshold_rel : Q) (num_peaks : option nat) (r : ref) (o : object) :
  nth_error h r = Some o ->
  nth_error (fst (largest_connected_component_ref volume h)) r = Some o /\
  nth_error (fst (_peak_local_max_ref image min_distance threshold_abs threshold_rel
                                      num_peaks h)) r = Some o.
Proof.
  intros Hr. assert (Hlt : r < length h) by (apply nth_error_Some; congruence).
  split.
  - destruct (@largest_connected_component_ref_frame (length h) volume h (le_n _))
      as [_ [Hsame _]].
    rewrite Hsame by exact Hlt. exact Hr.
  - destruct (@peak_local_max_ref_frame ties (length h) image min_distance threshold_abs
                threshold_rel num_peaks h (le_n _)) as [_ [Hsame _]].
    rewrite Hsame by exact Hlt. exact Hr.
Qed.

(** ** The claims at concrete grids *)

Section BothExamples.
Existing Instance index_order.

Lemma constant_grid_no_peaks_witness :
  _peak_local_max constant_example 10 0%Q (1 # 10)%Q None
  = inr (zeros_like_bool constant_example) /\
  forall j, marked (flat (zeros_like_bool constant_example)) j = false.
Proof.
  apply (@constant_grid_no_peaks index_order constant_example 10 0%Q (1 # 10)%Q None).
  - discriminate.
  - intros i j Hi Hj. simpl in Hi, Hj.
    destruct i as [|[|[|[|i]]]]; destruct j as [|[|[|[|j]]]]; try lia; reflexivity.
Defined.

(** The claim C6 as it is stated fails on a grid without cells: all its
    cells hold the same value, none existing, and [image.flat[0]] raises
    IndexError. *)
Lemma constant_grid_empty_raises :
  constant_grid empty_grid /\
  _peak_local_max empty_grid 10 0%Q (1 # 10)%Q None = inl IndexError.
Proof.
  split; [|reflexivity]. intros i j Hi. simpl in Hi. lia.
Qed.

Lemma outputs_are_fixed_points_witness :
  largest_connected_component first_region = inr first_region /\
  _peak_local_max (astype_of_bool line_peaks) 1 0%Q (1 # 10)%Q None = inr line_peaks.
Proof.
  apply (@outputs_are_fixed_points index_order nat _ tied_grid first_region line_grid 1
           0%Q (1 # 10)%Q None line_peaks).
  - vm_compute. reflexivity.
  - reflexivity.
  - vm_compute. reflexivity.
  - right. discriminate.
  - reflexivity.
  - reflexivity.
  - exists 0. split; [simpl; lia | reflexivity].
Defined.

(** The claim C8 as it is stated fails for [_peak_local_max]: with
    [threshold_abs = 2] the grid [0, 5, 0] has its peak at the middle
    cell, and the mask [0, 1, 0] run again has no cell above 2. *)
Lemma peaks_of_peaks_differ :
  _peak_local_max spike_grid 1 2%Q (1 # 10)%Q None = inr spike_peak /\
  _peak_local_max (astype_of_bool spike_peak) 1 2%Q (1 # 10)%Q None
  = inr (mk_ndarray [3] [false; false; false]) /\
  _peak_local_max (astype_of_bool spike_peak) 1 2%Q (1 # 10)%Q None <> inr spike_peak.
Proof.
  split; [vm_compute; reflexivity|]. split; [vm_compute; reflexivity|].
  vm_compute. discriminate.
Qed.

Lemma inputs_not_mutated_witness :
  nth_error (fst (largest_connected_component_ref 0 [FloatArray line_grid])) 0
  = Some (FloatArray line_grid) /\
  nth_error (fst (_peak_local_max_ref 0 1 0%Q (1 # 10)%Q None [FloatArray line_grid])) 0
  = Some (FloatArray line_grid).
Proof.
  apply (@inputs_not_mutated index_order [FloatArray line_grid] 0 0 1 0%Q (1 # 10)%Q None 0
           (FloatArray line_grid)).
  reflexivity.
Defined.
End BothExamples.

(** * Further properties of largest_connected_component *)

Lemma filter_marked_length (s : list bool) :
  length (filter (fun i => nth i s false) (seq 0 (length s))) = count_true s.
Proof.
  unfold count_true. induction s as [|a s IH]; [reflexivity|].
  cbn [length seq]. rewrite <- seq_shift. cbn [filter nth].
  rewrite filter_map_swap. cbn [nth].
  destruct a; cbn [length count_occ]; rewrite ?length_map, IH.
  - destruct (bool_dec true true); [reflexivity | congruence].
  - destruct (bool_dec false true); [discriminate | reflexivity].
Qed.

(** Distinct marked cells are at most as many as the marks. *)
Lemma cells_count_le (s : list bool) (cells : list nat) :
  NoDup cells -> (forall j, In j cells -> marked s j = true) ->
  length cells <= count_true s.
Proof.
  intros Hnd Hin. rewrite <- filter_marked_length.
  apply NoDup_incl_length; [exact Hnd|].
  intros j Hj. apply filter_In. split; [|apply Hin; exact Hj].
  apply in_seq. pose proof (nth_true_lt _ _ (Hin j Hj)). lia.
Qed.

Lemma count_true_eqb (labels : list nat) (l : nat) :
  count_true (map (fun x => x =? l) labels) = count_occ Nat.eq_dec labels l.
Proof.
  unfold count_true. induction labels as [|x labels IH]; [reflexivity|].
  cbn [map count_occ]. rewrite IH.
  destruct (Nat.eqb_spec x l) as [->|Hne].
  - destruct (bool_dec true true); [|congruence].
    destruct (Nat.eq_dec l l); [reflexivity | congruence].
  - destruct (bool_dec false true); [discriminate|].
    destruct (Nat.eq_dec x l); [congruence | reflexivity].
Qed.

Section LargestExtras.
Context {A : Type} `{Dtype A}.
Variable volume : ndarray A.

Local Abbreviation feat := (features volume).
Local Abbreviation labels := (flat (fst (ndimage_label volume))).
Local Abbreviation nb := (snd (ndimage_label volume)).

(** With one label the map of label 1 is the input cast to boolean. *)
Lemma one_label_mask :
  nb = 1 -> map (fun x => x =? 1) labels = map nonzero (flat volume).
Proof.
  intros Hone. pose proof (ndimage_label_inv volume) as Hinv.
  apply (nth_ext _ _ false false).
  - rewrite !length_map. rewrite (inv_length Hinv). apply length_map.
  - intros j _. rewrite nth_map_eqb by lia.
    change (nth j (map nonzero (flat volume)) false) with (is_feat feat j).
    pose proof (label_nonzero_iff Hinv j) as Hnz. pose proof (inv_bound Hinv j) as Hb.
    simpl in Hnz. rewrite Hone in Hb. destruct (is_feat feat j).
    + apply Nat.eqb_eq. assert (nth j labels 0 <> 0) by (apply Hnz; reflexivity). lia.
    + apply Nat.eqb_neq. intros E. assert (false = true) by (apply Hnz; lia). discriminate.
Qed.

(** A returned mask is the map of a label of maximal size. *)
Lemma largest_label (mask : ndarray bool) :
  largest_connected_component volume = inr mask ->
  exists k, 1 <= k <= nb /\
            flat mask = map (fun x => x =? k) labels /\
            forall l, 1 <= l <= nb ->
                      count_occ Nat.eq_dec labels l <= count_occ Nat.eq_dec labels k.
Proof.
  pose proof (ndimage_label_inv volume) as Hinv.
  pose proof one_label_mask as Hone.
  unfold largest_connected_component.
  destruct (ndimage_label volume) as [[sh ls] n] eqn:El. cbn [fst snd flat] in *.
  destruct (Nat.eqb_spec n 0) as [E0|E0]; [discriminate|].
  destruct (Nat.eqb_spec n 1) as [E1|E1].
  - intros Hm. injection Hm as <-. exists 1. split; [lia|]. split.
    + symmetry. apply Hone. exact E1.
    + intros l Hl. replace l with 1 by lia. lia.
  - destruct (select_largest_spec Hinv sh) as [k [Hsel [Hk [Hmax _]]]]; [lia|].
    rewrite Hsel. intros Hm. injection Hm as <-. exists k.
    split; [exact Hk|]. split; [reflexivity | exact Hmax].
Qed.

(** X1: the returned mask has the shape of the input, is true only at non-zero
    cells and holds at least one true cell. *)
Theorem largest_component_inside (mask : ndarray bool) :
  largest_connected_component volume = inr mask ->
  shape mask = shape volume /\
  length (flat mask) = length (flat volume) /\
  (forall j, marked (flat mask) j = true -> is_feat feat j = true) /\
  exists j, marked (flat mask) j = true.
Proof.
  intros Hm. destruct (largest_region volume Hm) as [Hsh [Hlen [seed [Hs Hreg]]]].
  split; [exact Hsh|]. split; [exact Hlen|]. split.
  - intros j Hj. apply Hreg in Hj. apply (connected_feat Hj).
  - exists seed. apply Hreg. apply connected_refl. exact Hs.
Qed.

(** X2: no connected region of the input has more cells than the returned
    mask: any duplicate-free list of cells connected to one cell is at most
    as long as the mask has true cells. *)
Theorem largest_component_maximal (mask : ndarray bool) (s : nat) (region : list nat) :
  largest_connected_component volume = inr mask ->
  NoDup region ->
  (forall j, In j region -> face_connected volume s j) ->
  length region <= count_true (flat mask).
Proof.
  intros Hm Hnd Hreg. destruct region as [|j0 region]; [simpl; lia|].
  pose proof (ndimage_label_inv volume) as Hinv.
  destruct (largest_label Hm) as [k [Hk [Hmask Hmax]]].
  assert (Hs : is_feat feat s = true).
  { apply (connected_feat (Hreg j0 (or_introl eq_refl))). }
  pose proof (proj2 (label_nonzero_iff Hinv s) Hs) as Hls.
  pose proof (inv_bound Hinv s) as Hbs. cbn beta in Hls.
  set (l := nth s labels 0) in *.
  apply Nat.le_trans with (m := count_true (map (fun x => x =? l) labels)).
  - apply cells_count_le; [exact Hnd|]. intros j Hj. unfold marked.
    rewrite nth_map_eqb by exact Hls. apply Nat.eqb_eq. symmetry.
    apply (label_eq_iff Hinv s j Hs). apply Hreg. exact Hj.
  - rewrite Hmask, !count_true_eqb. apply Hmax. lia.
Qed.

(** X3: only whether a cell is zero matters: the call on a grid and the call
    on the grid cast to boolean give the same result. *)
Theorem largest_component_of_truth_values :
  largest_connected_component (astype_bool volume) = largest_connected_component volume.
Proof.
  unfold largest_connected_component, ndimage_label, ndimage_label_with.
  unfold astype_bool. cbn [shape flat]. rewrite !map_map. cbn [nonzero Dtype_bool].
  reflexivity.
Qed.
End LargestExtras.

(** * Further properties of _peak_local_max *)

Lemma near_sym (r : nat) (c d : list nat) : near r c d -> near r d c.
Proof.
  unfold near. induction 1 as [|x y c d Hxy _ IH]; constructor; [lia | exact IH].
Qed.

Lemma near_in_window (r : nat) (c d : list nat) :
  near r c d -> In (map Z.of_nat d) (window (2 * r + 1) c).
Proof.
  intros Hn. apply in_window. induction Hn as [|x y c d Hxy _ IH]; simpl; constructor.
  - apply in_axis_window. lia.
  - exact IH.
Qed.

Section PeakExtras.
Context {ties : TieOrder}.
Variable image : ndarray Q.
Variable min_distance : nat.
Variables threshold_abs threshold_rel : Q.
Hypothesis Hw : well_shaped image.

Local Abbreviation n := (length (flat image)).
Local Abbreviation masked := (masked_image image min_distance).
Local Abbreviation candidate := (marked (flat (candidates image min_distance))).

(** The masked grid holds the cell or 0. *)
Lemma masked_cases i :
  i < n ->
  (candidate i = true /\ (cell masked i == cell image i)%Q) \/
  (candidate i = false /\ (cell masked i == 0)%Q).
Proof.
  intros Hi. unfold cell. rewrite masked_nth by exact Hi.
  destruct (candidate i); [left | right]; (split; [reflexivity|]); simpl.
  - apply Qmult_1_r.
  - apply Qmult_0_r.
Qed.

(** What a true cell of the result says, whichever path returned it. *)
Lemma peak_survives (num_peaks : option nat) (mask : ndarray bool) (i : nat) :
  _peak_local_max image min_distance threshold_abs threshold_rel num_peaks = inr mask ->
  marked (flat mask) i = true ->
  exists m, np_max (flat masked) = Some m /\
            i < n /\
            (py_max (float_mul m threshold_rel) threshold_abs < cell masked i)%Q.
Proof.
  intros Hres Hi. destruct (nth_error (flat image) 0) as [first|] eqn:Hfirst.
  2:{ unfold _peak_local_max in Hres. rewrite Hfirst in Hres. discriminate. }
  destruct (forallb (fun x => Qeq_bool x first) (flat image)) eqn:Hflat.
  - rewrite (peak_flat_path _ _ _ _ _ Hfirst Hflat) in Hres. injection Hres as <-.
    unfold marked, zeros_like_bool in Hi. cbn [flat] in Hi. rewrite zeros_nth in Hi.
    discriminate.
  - destruct (peak_general_path min_distance threshold_abs threshold_rel num_peaks
                Hfirst Hw Hflat) as [m [cells [Hm [Hres' [_ [Hmem _]]]]]].
    rewrite Hres' in Hres. injection Hres as <-. exists m. split; [exact Hm|].
    apply Hmem, kept_cells_incl, in_survivors in Hi. rewrite masked_length in Hi. exact Hi.
Qed.

Lemma peak_is_candidate (num_peaks : option nat) (mask : ndarray bool) (i : nat) :
  (0 <= threshold_abs)%Q ->
  _peak_local_max image min_distance threshold_abs threshold_rel num_peaks = inr mask ->
  marked (flat mask) i = true ->
  i < n /\ candidate i = true /\ (threshold_abs < cell image i)%Q.
Proof.
  intros Habs Hres Hi. destruct (@peak_survives num_peaks mask i Hres Hi) as [m [_ [Hlt Hgt]]].
  destruct (py_max_spec (float_mul m threshold_rel) threshold_abs) as [_ [_ Hge]].
  assert (Hpos : (threshold_abs < cell masked i)%Q).
  { apply Qle_lt_trans with (y := py_max (float_mul m threshold_rel) threshold_abs); assumption. }
  split; [exact Hlt|]. destruct (masked_cases Hlt) as [[Hc Heq]|[Hc Heq]].
  - split; [exact Hc|]. rewrite <- Heq. exact Hpos.
  - exfalso. rewrite Heq in Hpos. apply (Qlt_not_le _ _ Hpos). exact Habs.
Qed.

(** X6: with [threshold_abs >= 0] every peak is above [threshold_abs] and no
    cell at most [min_distance] away on every axis exceeds it. *)
Theorem peak_is_local_maximum (num_peaks : option nat) (mask : ndarray bool) (i : nat) :
  (0 <= threshold_abs)%Q ->
  _peak_local_max image min_distance threshold_abs threshold_rel num_peaks = inr mask ->
  marked (flat mask) i = true ->
  (threshold_abs < cell image i)%Q /\
  forall j, j < n ->
            near min_distance (unravel_index i (shape image)) (unravel_index j (shape image)) ->
            (cell image j <= cell image i)%Q.
Proof.
  intros Habs Hres Hi.
  destruct (@peak_is_candidate num_peaks mask i Habs Hres Hi) as [Hlt [Hc Hgt]].
  split; [exact Hgt|]. intros j Hj Hnear.
  rewrite (candidate_iff min_distance Hw Hlt) in Hc.
  unfold cell. rewrite <- (get_constant_centre Hw Hj).
  apply Hc. apply near_in_window. exact Hnear.
Qed.

(** X7: with [threshold_abs >= 0] two peaks at most [min_distance] apart on
    every axis hold the same value: closer peaks only come as plateaus. *)
Theorem close_peaks_are_equal (num_peaks : option nat) (mask : ndarray bool) (i j : nat) :
  (0 <= threshold_abs)%Q ->
  _peak_local_max image min_distance threshold_abs threshold_rel num_peaks = inr mask ->
  marked (flat mask) i = true -> marked (flat mask) j = true ->
  near min_distance (unravel_index i (shape image)) (unravel_index j (shape image)) ->
  (cell image i == cell image j)%Q.
Proof.
  intros Habs Hres Hi Hj Hnear.
  destruct (@peak_is_candidate num_peaks mask i Habs Hres Hi) as [Hilt [Hic _]].
  destruct (@peak_is_candidate num_peaks mask j Habs Hres Hj) as [Hjlt [Hjc _]].
  rewrite (candidate_iff min_distance Hw Hilt) in Hic.
  rewrite (candidate_iff min_distance Hw Hjlt) in Hjc.
  unfold cell. apply Qle_antisym.
  - rewrite <- (get_constant_centre Hw Hilt). apply Hjc.
    apply near_in_window, near_sym. exact Hnear.
  - rewrite <- (get_constant_centre Hw Hjlt). apply Hic.
    apply near_in_window. exact Hnear.
Qed.

(** X5: the result has the shape and the number of cells of the input. *)
Theorem peak_mask_shape (num_peaks : option nat) (mask : ndarray bool) :
  _peak_local_max image min_distance threshold_abs threshold_rel num_peaks = inr mask ->
  shape mask = shape image /\ length (flat mask) = n.
Proof. intros Hres. apply (peak_result_shape _ _ _ _ Hw Hres). Qed.

(** X10: a grid with a cell, nowhere above [threshold_abs >= 0], has no peak:
    the result is the all-false mask. *)
Theorem no_peak_below_threshold_abs (num_peaks : option nat) :
  flat image <> [] ->
  (0 <= threshold_abs)%Q ->
  (forall j, j < n -> (cell image j <= threshold_abs)%Q) ->
  _peak_local_max image min_distance threshold_abs threshold_rel num_peaks
  = inr (zeros_like_bool image).
Proof.
  intros Hne Habs Hbelow. destruct (nth_error (flat image) 0) as [first|] eqn:Hfirst.
  2:{ apply nth_error_None in Hfirst. destruct (flat image); [congruence | simpl in Hfirst; lia]. }
  destruct (forallb (fun x => Qeq_bool x first) (flat image)) eqn:Hflat.
  - apply (peak_flat_path _ _ _ _ _ Hfirst Hflat).
  - destruct (peak_general_path min_distance threshold_abs threshold_rel num_peaks
                Hfirst Hw Hflat) as [m [cells [Hm [Hres [Hlen [Hmem _]]]]]].
    rewrite Hres. f_equal. apply ndarray_ext; [reflexivity|].
    unfold zeros_like_bool. cbn [flat].
    apply bool_list_ext; [rewrite Hlen, length_map; reflexivity|].
    intros j. rewrite zeros_nth. split; [|discriminate]. intros Hj. exfalso.
    apply Hmem, kept_cells_incl, in_survivors in Hj. rewrite masked_length in Hj.
    destruct Hj as [Hlt Hgt].
    destruct (py_max_spec (float_mul m threshold_rel) threshold_abs) as [_ [_ Hge]].
    apply (Qlt_not_le _ _ Hgt).
    apply Qle_trans with (y := threshold_abs); [|exact Hge].
    destruct (masked_cases Hlt) as [[_ Heq]|[_ Heq]]; fold (cell masked j); rewrite Heq.
    + apply Hbelow. exact Hlt.
    + exact Habs.
Qed.

(** X11: the cap only removes peaks: every peak found with [num_peaks = k] is
    a peak found without a cap. *)
Theorem capped_peaks_are_peaks (k : nat) (capped : ndarray bool) :
  _peak_local_max image min_distance threshold_abs threshold_rel (Some k) = inr capped ->
  exists all_peaks,
    _peak_local_max image min_distance threshold_abs threshold_rel None = inr all_peaks /\
    forall i, marked (flat capped) i = true -> marked (flat all_peaks) i = true.
Proof.
  intros Hres. destruct (nth_error (flat image) 0) as [first|] eqn:Hfirst.
  2:{ unfold _peak_local_max in Hres. rewrite Hfirst in Hres. discriminate. }
  destruct (forallb (fun x => Qeq_bool x first) (flat image)) eqn:Hflat.
  - rewrite (peak_flat_path _ _ _ _ _ Hfirst Hflat) in Hres. injection Hres as <-.
    exists (zeros_like_bool image). split; [|tauto].
    apply (peak_flat_path _ _ _ _ _ Hfirst Hflat).
  - destruct (peak_general_path min_distance threshold_abs threshold_rel (Some k)
                Hfirst Hw Hflat) as [m [cells [Hm [Hres' [_ [Hmem _]]]]]].
    destruct (peak_general_path min_distance threshold_abs threshold_rel None
                Hfirst Hw Hflat) as [m' [cells' [Hm' [Hall [_ [Hmem' _]]]]]].
    rewrite Hres' in Hres. injection Hres as <-. rewrite Hm in Hm'. injection Hm' as <-.
    exists (mk_ndarray (shape image) cells'). split; [exact Hall|].
    intros i Hi. cbn [flat] in *. apply Hmem'. simpl. apply Hmem in Hi.
    apply (kept_cells_incl _ _ _ _ Hi).
Qed.
End PeakExtras.

Section PeakMaximum.
Context {ties : TieOrder}.
Variable image : ndarray Q.
Variable min_distance : nat.
Variables threshold_abs threshold_rel : Q.
Variable num_peaks : option nat.
Variable mask : ndarray bool.
Variable i : nat.
Hypothesis Hw : well_shaped image.
Hypothesis Hres :
  _peak_local_max image min_distance threshold_abs threshold_rel num_peaks = inr mask.

Local Abbreviation n := (length (flat image)).
Local Abbreviation masked := (masked_image image min_distance).
Local Abbreviation candidate := (marked (flat (candidates image min_distance))).

(** X8: on a plateau: without a cap and with [threshold_abs >= 0], a local
    maximum holding the value of a peak is a peak too. *)
Theorem plateau_cells_are_peaks (j : nat) :
  num_peaks = None ->
  (0 <= threshold_abs)%Q ->
  marked (flat mask) i = true ->
  j < n -> candidate j = true -> (cell image j == cell image i)%Q ->
  marked (flat mask) j = true.
Proof.
  intros Hnone Habs Hi Hj Hc Heq. subst num_peaks.
  destruct (@peak_is_candidate ties image min_distance threshold_abs threshold_rel Hw None mask i
              Habs Hres Hi) as [Hilt [Hic _]].
  destruct (@peak_survives ties image min_distance threshold_abs threshold_rel Hw None mask i
              Hres Hi) as [m [Hm [_ Hgt]]].
  destruct (nth_error (flat image) 0) as [first|] eqn:Hfirst.
  2:{ apply nth_error_None in Hfirst. lia. }
  destruct (forallb (fun x => Qeq_bool x first) (flat image)) eqn:Hflat.
  { rewrite (peak_flat_path _ _ _ _ _ Hfirst Hflat) in Hres. injection Hres as <-.
    unfold marked, zeros_like_bool in Hi. cbn [flat] in Hi. rewrite zeros_nth in Hi.
    discriminate. }
  destruct (peak_general_path min_distance threshold_abs threshold_rel None
              Hfirst Hw Hflat) as [m' [cells [Hm' [Hres' [_ [Hmem _]]]]]].
  rewrite Hres' in Hres. injection Hres as <-. rewrite Hm in Hm'. injection Hm' as <-.
  cbn [flat]. apply Hmem. simpl. apply in_survivors. rewrite masked_length.
  split; [exact Hj|].
  destruct (masked_cases image min_distance Hilt) as [[_ Hmi]|[Hcf _]]; [|congruence].
  destruct (masked_cases image min_distance Hj) as [[_ Hmj]|[Hcf _]]; [|congruence].
  fold (cell masked j). rewrite Hmj, Heq, <- Hmi. exact Hgt.
Qed.

Hypothesis Hi : i < n.
Hypothesis Hmax : forall j, j < n -> (cell image j <= cell image i)%Q.
Hypothesis Hpos : (0 < cell image i)%Q.
Hypothesis Hrel : (float_mul (cell image i) threshold_rel < cell image i)%Q.
Hypothesis Habs : (threshold_abs < cell image i)%Q.
Hypothesis Hvaries : exists j, j < n /\ ~ (cell image j == cell image i)%Q.






End PeakMaximum.

(** * Properties of get_border_data *)

Lemma in_combine_seq {A} (l : list A) : forall s i v,
  In (i, v) (combine (seq s (length l)) l) <-> s <= i /\ nth_error l (i - s) = Some v.
Proof.
  induction l as [|a l IH]; intros s i v; cbn [length seq combine In].
  - split; [tauto|]. intros [_ H]. destruct (i - s); discriminate.
  - rewrite IH. split.
    + intros [E|[Hs Hn]].
      * injection E as <- <-. rewrite Nat.sub_diag. split; [lia | reflexivity].
      * split; [lia|]. replace (i - s) with (S (i - S s)) by lia. exact Hn.
    + intros [Hs Hn]. destruct (Nat.eq_dec i s) as [->|Hne].
      * rewrite Nat.sub_diag in Hn. injection Hn as <-. left. reflexivity.
      * right. split; [lia|]. replace (i - s) with (S (i - S s)) in Hn by lia. exact Hn.
Qed.

Lemma map_snd_combine {A B} (l1 : list A) : forall (l2 : list B),
  length l1 = length l2 -> map snd (combine l1 l2) = l2.
Proof.
  induction l1 as [|a l1 IH]; intros [|b l2] Hlen; try discriminate; [reflexivity|].
  simpl. f_equal. apply IH. simpl in Hlen. lia.
Qed.

Lemma filter_fst_combine {A B} (P : A -> bool) (l1 : list A) : forall (l2 : list B),
  length l1 = length l2 ->
  map fst (filter (fun iv => P (fst iv)) (combine l1 l2)) = filter P l1.
Proof.
  induction l1 as [|a l1 IH]; intros [|b l2] Hlen; try discriminate; [reflexivity|].
  cbn [combine filter fst]. destruct (P a); cbn [map fst]; rewrite IH by (simpl in Hlen; lia);
    reflexivity.
Qed.

Lemma seq_add_map (s a : nat) : seq a s = map (fun r => a + r) (seq 0 s).
Proof.
  induction a as [|a IH]; [symmetry; apply map_id|].
  rewrite <- seq_shift, IH, map_map. reflexivity.
Qed.

(** Cells of an interval among the first [d]. *)
Lemma count_interval (lo hi d : nat) :
  length (filter (fun c => (lo <=? c) && (c <? hi)) (seq 0 d)) = Nat.min hi d - Nat.min lo d.
Proof.
  induction d as [|d IH]; [simpl; lia|].
  rewrite seq_S, filter_app, length_app, IH. cbn [filter Nat.add].
  destruct (Nat.leb_spec lo d), (Nat.ltb_spec d hi); cbn [andb length]; lia.
Qed.

(** Counting over [d] blocks of [s] cells, by the block and by the place in
    the block. *)
Lemma count_blocks (f : nat -> nat -> bool) (s d : nat) :
  s <> 0 ->
  (forall b, length (filter (f b) (seq 0 s)) = length (filter (f 0) (seq 0 s))) ->
  length (filter (fun i => f (i / s) (i mod s)) (seq 0 (d * s)))
  = d * length (filter (f 0) (seq 0 s)).
Proof.
  intros Hs Hsame. induction d as [|d IH]; [reflexivity|].
  replace (S d * s) with (d * s + s) by lia.
  rewrite seq_app, filter_app, length_app, IH. cbn [Nat.add].
  rewrite (seq_add_map s (d * s)), filter_map_swap, length_map.
  rewrite (filter_ext_in (fun a => f ((d * s + a) / s) ((d * s + a) mod s)) (f d)).
  - rewrite (Hsame d). lia.
  - intros r Hr. apply in_seq in Hr.
    rewrite Nat.div_add_l by exact Hs. rewrite (Nat.div_small r s) by lia.
    rewrite Nat.add_0_r, (Nat.add_comm (d * s) r), Nat.Div0.mod_add.
    rewrite Nat.mod_small by lia. reflexivity.
Qed.

Lemma count_by_block (g : nat -> bool) (s d : nat) :
  length (filter (fun i => g (i / s)) (seq 0 (d * s))) = length (filter g (seq 0 d)) * s.
Proof.
  destruct (Nat.eq_dec s 0) as [->|Hs]; [rewrite Nat.mul_0_r; simpl; lia|].
  induction d as [|d IH]; [reflexivity|].
  replace (S d * s) with (d * s + s) by lia.
  rewrite seq_app, filter_app, length_app, IH. cbn [Nat.add].
  rewrite (seq_S d 0), filter_app, length_app. cbn [Nat.add filter].
  rewrite (seq_add_map s (d * s)), filter_map_swap, length_map.
  rewrite (filter_ext_in (fun a => g ((d * s + a) / s)) (fun _ => g d)).
  - destruct (g d); [rewrite filter_true | rewrite filter_false];
      cbn [length]; rewrite ?length_seq; lia.
  - intros r Hr. apply in_seq in Hr.
    rewrite Nat.div_add_l by exact Hs. rewrite (Nat.div_small r s) by lia.
    rewrite Nat.add_0_r. reflexivity.
Qed.

Lemma count_in_block (h : nat -> bool) (s d : nat) :
  length (filter (fun i => h (i mod s)) (seq 0 (d * s))) = d * length (filter h (seq 0 s)).
Proof.
  destruct (Nat.eq_dec s 0) as [->|Hs]; [rewrite Nat.mul_0_r; simpl; lia|].
  apply (count_blocks (fun _ r => h r) d Hs). reflexivity.
Qed.

Lemma unravel_lt (sh : list nat) : forall i axis,
  i < shape_size sh -> axis < length sh -> coordinate sh axis i < nth axis sh 0.
Proof.
  unfold coordinate. induction sh as [|d rest IH]; intros i axis Hi Hax; simpl in *; [lia|].
  assert (Hpos : shape_size rest <> 0) by (intros E; rewrite E in Hi; lia).
  destruct axis as [|axis].
  - apply Nat.Div0.div_lt_upper_bound. lia.
  - apply IH; [apply Nat.mod_upper_bound; exact Hpos | lia].
Qed.

Lemma slice_bound_stop (b : Z) (d : nat) :
  (0 <= b)%Z -> slice_bound b d = Nat.min (Z.to_nat b) d.
Proof. intros Hb. unfold slice_bound. destruct (Z.ltb_spec b 0); [lia | reflexivity]. Qed.

Lemma slice_bound_start (b : Z) (d : nat) :
  (0 < b)%Z -> slice_bound (- b) d = d - Nat.min (Z.to_nat b) d.
Proof. intros Hb. unfold slice_bound. destruct (Z.ltb_spec (- b) 0); lia. Qed.

Section Slabs.
Context {A : Type}.
Variable data : ndarray A.
Hypothesis Hw : well_shaped data.

Local Abbreviation sh := (shape data).
Local Abbreviation n := (length (flat data)).

Lemma in_take_slab (axis start stop : nat) (v : A) :
  In v (take_slab data axis start stop)
  <-> exists i, nth_error (flat data) i = Some v /\
                start <= coordinate sh axis i < stop.
Proof.
  unfold take_slab. rewrite in_map_iff. split.
  - intros [[i v'] [E Hin]]. simpl in E. subst v'. apply filter_In in Hin.
    destruct Hin as [Hin Hc]. apply (in_combine_seq (flat data) 0 i v) in Hin.
    rewrite Nat.sub_0_r in Hin. cbn [fst] in Hc. apply andb_true_iff in Hc.
    destruct Hc as [Hlo Hhi]. apply Nat.leb_le in Hlo. apply Nat.ltb_lt in Hhi.
    exists i. split; [apply Hin | lia].
  - intros [i [Hi Hc]]. exists (i, v). split; [reflexivity|]. apply filter_In. split.
    + apply (in_combine_seq (flat data) 0 i v). rewrite Nat.sub_0_r. split; [lia | exact Hi].
    + cbn [fst]. apply andb_true_iff. split; [apply Nat.leb_le | apply Nat.ltb_lt]; lia.
Qed.

Lemma take_slab_length (axis start stop : nat) :
  length (take_slab data axis start stop)
  = length (filter (fun i => (start <=? coordinate sh axis i)
                             && (coordinate sh axis i <? stop)) (seq 0 n)).
Proof.
  unfold take_slab. rewrite length_map.
  rewrite <- (filter_fst_combine
                (fun i => (start <=? coordinate sh axis i) && (coordinate sh axis i <? stop))
                (seq 0 n) (flat data)) by apply length_seq.
  rewrite length_map. reflexivity.
Qed.

Lemma take_slab_empty (axis start : nat) : take_slab data axis start start = [].
Proof.
  unfold take_slab. rewrite (filter_ext_in _ (fun _ => false)).
  - rewrite filter_false. reflexivity.
  - intros [i v] _. cbn [fst].
    destruct (Nat.leb_spec start (coordinate sh axis i)),
      (Nat.ltb_spec (coordinate sh axis i) start); try reflexivity; lia.
Qed.

Lemma take_slab_full (axis : nat) :
  axis < length sh -> take_slab data axis 0 (nth axis sh 0) = flat data.
Proof.
  intros Hax. unfold take_slab. rewrite (filter_ext_in _ (fun _ => true)).
  - rewrite filter_true. apply map_snd_combine. apply length_seq.
  - intros [i v] Hin. cbn [fst]. apply in_combine_l, in_seq in Hin.
    apply andb_true_iff. split; [reflexivity|]. apply Nat.ltb_lt.
    apply unravel_lt; [|exact Hax]. rewrite <- Hw. lia.
Qed.

(** X13: with [border_size = 0] the slices [data[-0:]] are whole: the result is
    the data three times over, not the empty sequence. *)
Theorem border_zero_is_everything :
  3 <= length sh ->
  get_border_data data 0 = inr (flat data ++ flat data ++ flat data).
Proof.
  intros Hrank. unfold get_border_data. cbv beta zeta.
  destruct (Nat.ltb_spec (length sh) 3); [lia|].
  change (- 0)%Z with 0%Z. unfold slice_bound. cbn [Z.ltb Z.compare Z.to_nat Nat.min].
  rewrite !take_slab_empty, !take_slab_full by lia. reflexivity.
Qed.

(** X14: with [border_size > 0] a value is in the result exactly when it is the
    value of a cell less than [border_size] away from a face on one of the
    first three axes. *)
Theorem border_membership (border_size : Z) (border : list A) (v : A) :
  3 <= length sh ->
  (0 < border_size)%Z ->
  get_border_data data border_size = inr border ->
  (In v border
   <-> exists i axis,
         nth_error (flat data) i = Some v /\ axis < 3 /\
         (coordinate sh axis i < Z.to_nat border_size
          \/ nth axis sh 0 <= coordinate sh axis i + Z.to_nat border_size)).
Proof.
  intros Hrank Hb. unfold get_border_data. cbv beta zeta.
  destruct (Nat.ltb_spec (length sh) 3); [lia|]. intros E. injection E as <-.
  assert (Hstop : forall d, slice_bound border_size d = Nat.min (Z.to_nat border_size) d)
    by (intros d; apply slice_bound_stop; lia).
  assert (Hstart : forall d, slice_bound (- border_size) d
                             = d - Nat.min (Z.to_nat border_size) d)
    by (intros d; apply slice_bound_start; exact Hb).
  rewrite !Hstop, !Hstart.
  rewrite !in_app_iff, !in_take_slab.
  assert (Hlt : forall i axis, axis < 3 -> nth_error (flat data) i <> None ->
                               coordinate sh axis i < nth axis sh 0).
  { intros i axis Hax Hi. apply unravel_lt; [|lia]. rewrite <- Hw.
    apply nth_error_Some. exact Hi. }
  split.
  - intros [Hin|[Hin|[Hin|[Hin|[Hin|Hin]]]]]; destruct Hin as [i [Hi Hc]];
      [exists i, 0 | exists i, 0 | exists i, 1 | exists i, 1 | exists i, 2 | exists i, 2];
      (split; [exact Hi|]; split; [lia|]; lia).
  - intros [i [axis [Hi [Hax Hc]]]].
    assert (Hd : coordinate sh axis i < nth axis sh 0)
      by (apply Hlt; [exact Hax | congruence]).
    destruct axis as [|[|[|axis]]]; [| | |lia].
    + destruct Hc; [left | right; left]; exists i; (split; [exact Hi | lia]).
    + destruct Hc; [do 2 right; left | do 3 right; left]; exists i; (split; [exact Hi | lia]).
    + destruct Hc; [do 4 right; left | do 5 right]; exists i; (split; [exact Hi | lia]).
Qed.
End Slabs.

Section Slabs3D.
Context {A : Type}.
Variable data : ndarray A.
Variables d1 d2 d3 : nat.
Hypothesis Hshape : shape data = [d1; d2; d3].
Hypothesis Hw : well_shaped data.

Lemma cells_3d : length (flat data) = d1 * (d2 * d3).
Proof.
  rewrite Hw, Hshape. cbn [shape_size fold_right]. rewrite Nat.mul_1_r. reflexivity.
Qed.

Lemma coordinates_3d i :
  coordinate (shape data) 0 i = i / (d2 * d3) /\
  coordinate (shape data) 1 i = (i mod (d2 * d3)) / d3 /\
  coordinate (shape data) 2 i = (i mod (d2 * d3)) mod d3.
Proof.
  unfold coordinate. rewrite Hshape. cbn [unravel_index shape_size fold_right nth].
  rewrite !Nat.mul_1_r, Nat.div_1_r. auto.
Qed.

Lemma slab_lengths (start stop : nat) :
  length (take_slab data 0 start stop) = (Nat.min stop d1 - Nat.min start d1) * (d2 * d3) /\
  length (take_slab data 1 start stop) = d1 * ((Nat.min stop d2 - Nat.min start d2) * d3) /\
  length (take_slab data 2 start stop) = d1 * (d2 * (Nat.min stop d3 - Nat.min start d3)).
Proof.
  rewrite !take_slab_length, cells_3d.
  set (g := fun c => (start <=? c) && (c <? stop)).
  split; [|split].
  - rewrite (filter_ext _ (fun i => g (i / (d2 * d3)))).
    + rewrite count_by_block. unfold g. rewrite count_interval. reflexivity.
    + intros i. destruct (coordinates_3d i) as [-> _]. reflexivity.
  - rewrite (filter_ext _ (fun i => (fun r => g (r / d3)) (i mod (d2 * d3)))).
    + rewrite (count_in_block (fun r => g (r / d3))), count_by_block.
      unfold g. rewrite count_interval. reflexivity.
    + intros i. destruct (coordinates_3d i) as [_ [-> _]]. reflexivity.
  - rewrite (filter_ext _ (fun i => (fun r => g (r mod d3)) (i mod (d2 * d3)))).
    + rewrite (count_in_block (fun r => g (r mod d3))), (count_in_block g).
      unfold g. rewrite count_interval. reflexivity.
    + intros i. destruct (coordinates_3d i) as [_ [_ ->]]. reflexivity.
Qed.

(** X15: on a [d1 x d2 x d3] array and with [border_size > 0] the call returns
    two slabs per axis, each [min border_size d] thick, corners and edges
    counted once per slab they lie in. *)
Theorem border_length (border_size : Z) :
  (0 < border_size)%Z ->
  exists border,
    get_border_data data border_size = inr border /\
    length border
    = 2 * (Nat.min (Z.to_nat border_size) d1 * (d2 * d3)
           + d1 * (Nat.min (Z.to_nat border_size) d2 * d3)
           + d1 * (d2 * Nat.min (Z.to_nat border_size) d3)).
Proof.
  intros Hb. unfold get_border_data. cbv beta zeta. rewrite Hshape.
  cbn [length Nat.ltb Nat.leb nth]. eexists. split; [reflexivity|].
  assert (Hstop : forall d, slice_bound border_size d = Nat.min (Z.to_nat border_size) d)
    by (intros d; apply slice_bound_stop; lia).
  assert (Hstart : forall d, slice_bound (- border_size) d
                             = d - Nat.min (Z.to_nat border_size) d)
    by (intros d; apply slice_bound_start; exact Hb).
  rewrite !Hstop, !Hstart, !length_app.
  rewrite (proj1 (slab_lengths _ _)), (proj1 (slab_lengths _ _)).
  rewrite (proj1 (proj2 (slab_lengths _ _))), (proj1 (proj2 (slab_lengths _ _))).
  rewrite (proj2 (proj2 (slab_lengths _ _))), (proj2 (proj2 (slab_lengths _ _))).
  set (k := Z.to_nat border_size).
  replace (Nat.min (Nat.min k d1) d1 - Nat.min 0 d1) with (Nat.min k d1) by lia.
  replace (Nat.min d1 d1 - Nat.min (d1 - Nat.min k d1) d1) with (Nat.min k d1) by lia.
  replace (Nat.min (Nat.min k d2) d2 - Nat.min 0 d2) with (Nat.min k d2) by lia.
  replace (Nat.min d2 d2 - Nat.min (d2 - Nat.min k d2) d2) with (Nat.min k d2) by lia.
  replace (Nat.min (Nat.min k d3) d3 - Nat.min 0 d3) with (Nat.min k d3) by lia.
  replace (Nat.min d3 d3 - Nat.min (d3 - Nat.min k d3) d3) with (Nat.min k d3) by lia.
  lia.
Qed.
End Slabs3D.

(** * Properties of largest_connected_component_img *)

Section ImageWrapperFacts.
Variable niimg_like : Type.
Variable niimg : Type.
Variable affine_matrix : Type.
Variable check_niimg_3d : niimg_like -> exception + niimg.
Variable get_affine : niimg -> exception + affine_matrix.
Variable _safe_get_data : niimg -> exception + object.
Variable new_img_like : niimg -> ndarray bool -> affine_matrix -> exception + niimg.

Local Abbreviation component :=
  (component_of_img check_niimg_3d get_affine _safe_get_data new_img_like).
Local Abbreviation loop :=
  (component_loop check_niimg_3d get_affine _safe_get_data new_img_like).
Local Abbreviation wrapper :=
  (largest_connected_component_img check_niimg_3d get_affine _safe_get_data new_img_like).

Lemma component_loop_ok (imgs : list niimg_like) : forall ret outs,
  loop imgs ret = inr outs
  <-> exists news, outs = ret ++ news /\
                   Forall2 (fun img new_img => component img = inr new_img) imgs news.
Proof.
  induction imgs as [|img imgs IH]; intros ret outs; cbn [component_loop].
  - split.
    + intros E. injection E as <-. exists []. rewrite app_nil_r. split; constructor.
    + intros [news [-> Hf]]. inversion Hf. rewrite app_nil_r. reflexivity.
  - destruct (component img) as [e|new_img] eqn:Ec; cbn [bind_exception].
    + split; [discriminate|]. intros [news [_ Hf]]. inversion Hf; subst. congruence.
    + rewrite IH. split.
      * intros [news [-> Hf]]. exists (new_img :: news). rewrite <- app_assoc.
        split; [reflexivity|]. constructor; assumption.
      * intros [news [-> Hf]]. inversion Hf as [|x y l l' Hxy Hrest]; subst.
        assert (Ey : y = new_img) by congruence. subst y.
        exists l'. rewrite <- app_assoc. split; [reflexivity | exact Hrest].
Qed.

Lemma component_loop_fails (pre : list niimg_like) : forall ret img post e,
  (forall x, In x pre -> exists out, component x = inr out) ->
  component img = inl e ->
  loop (pre ++ img :: post) ret = inl e.
Proof.
  induction pre as [|x pre IH]; intros ret img post e Hpre Himg; cbn [app component_loop].
  - rewrite Himg. reflexivity.
  - destruct (Hpre x (or_introl eq_refl)) as [out Hout]. rewrite Hout. cbn [bind_exception].
    apply IH; [|exact Himg]. intros y Hy. apply Hpre. right. exact Hy.
Qed.

(** X16: given an iterable, the call returns a list exactly when every image
    goes through, and the list then holds the component image of each
    input image, in order (so as many images as it was given; none for
    none). *)
Theorem img_list_results (imgs : list niimg_like) (outs : list niimg) :
  largest_connected_component_img check_niimg_3d get_affine _safe_get_data
    new_img_like (iterable imgs)
  = inr (list_result outs)
  <-> Forall2 (fun img new_img =>
                 component_of_img check_niimg_3d get_affine _safe_get_data
                   new_img_like img = inr new_img)
              imgs outs.
Proof.
  unfold largest_connected_component_img.
  destruct (loop imgs []) as [e|ret] eqn:El; cbn [bind_exception].
  - split; [discriminate|]. intros Hf.
    assert (Hok : loop imgs [] = inr outs).
    { apply component_loop_ok. exists outs. split; [reflexivity | exact Hf]. }
    congruence.
  - apply component_loop_ok in El. destruct El as [news [-> Hf]]. cbn [app]. split.
    + intros E. injection E as <-. exact Hf.
    + intros Hf'. do 2 f_equal. revert Hf Hf'. clear. revert news outs.
      induction imgs as [|img imgs IH]; intros news outs Hf Hf';
        inversion Hf; inversion Hf'; subst; [reflexivity|].
      f_equal; [congruence | apply IH; assumption].
Qed.

(** X17: one image that fails (its data has no non-zero cell, say) makes the
    whole call on an iterable raise that exception, once the images before
    it went through: no partial list is returned. *)
Theorem img_list_first_failure (pre post : list niimg_like) (img : niimg_like)
  (e : exception) :
  (forall x, In x pre ->
             exists out, component_of_img check_niimg_3d get_affine _safe_get_data
                           new_img_like x = inr out) ->
  component_of_img check_niimg_3d get_affine _safe_get_data new_img_like img = inl e ->
  largest_connected_component_img check_niimg_3d get_affine _safe_get_data
    new_img_like (iterable (pre ++ img :: post))
  = inl e.
Proof.
  intros Hpre Himg. unfold largest_connected_component_img.
  rewrite (component_loop_fails pre [] img post Hpre Himg). reflexivity.
Qed.

(** X18: an image whose data holds no non-zero cell fails with the error of
    [largest_connected_component], whatever the helpers return for it. *)
Theorem img_without_component (img : niimg_like) (checked : niimg)
  (affine : affine_matrix) (data : object) :
  check_niimg_3d img = inr checked ->
  get_affine checked = inr affine ->
  _safe_get_data checked = inr data ->
  largest_connected_component_object data = inl ValueError_no_components ->
  largest_connected_component_img check_niimg_3d get_affine _safe_get_data
    new_img_like (one_img img)
  = inl ValueError_no_components /\
  forall pre post,
    (forall x, In x pre ->
               exists out, component_of_img check_niimg_3d get_affine _safe_get_data
                             new_img_like x = inr out) ->
    largest_connected_component_img check_niimg_3d get_affine _safe_get_data
      new_img_like (iterable (pre ++ img :: post))
    = inl ValueError_no_components.
Proof.
  intros Hc Ha Hd Hl.
  assert (Hfail : component img = inl ValueError_no_components).
  { unfold component_of_img. rewrite Hc. cbn [bind_exception]. rewrite Ha.
    cbn [bind_exception]. rewrite Hd. cbn [bind_exception]. rewrite Hl. reflexivity. }
  split.
  - unfold largest_connected_component_img. cbn [component_loop]. rewrite Hfail. reflexivity.
  - intros pre post Hpre. unfold largest_connected_component_img.
    rewrite (component_loop_fails pre [] img post Hpre Hfail). reflexivity.
Qed.

(** X19: given one image, the call returns what it returns as the only element
    for the list of that image. *)
Theorem img_single_as_list (img : niimg_like) (out : niimg) :
  largest_connected_component_img check_niimg_3d get_affine _safe_get_data
    new_img_like (one_img img)
  = inr (one_result out)
  <-> largest_connected_component_img check_niimg_3d get_affine _safe_get_data
        new_img_like (iterable [img])
      = inr (list_result [out]).
Proof.
  unfold largest_connected_component_img. cbn [component_loop].
  destruct (component img) as [e|new_img]; cbn [bind_exception app].
  - split; discriminate.
  - split; intros E; injection E as <-; reflexivity.
Qed.
End ImageWrapperFacts.

(** * The returned arrays are new objects *)

(** X4: the run of [largest_connected_component] on a reference ends as the
    function on the array does, and a returned mask is an array allocated
    during the call: its reference is none of the heap before the call,
    the short cut [volume.astype(np.bool)] included, so it is never the
    caller's array. *)
Theorem largest_component_mask_is_new (h : heap) (volume : ref) (o : object) :
  nth_error h volume = Some o ->
  let run := largest_connected_component_ref volume h in
  match largest_connected_component_object o with
  | inl e => snd run = inl e
  | inr mask => exists out, snd run = inr out /\ length h <= out /\ out <> volume /\
                            nth_error (fst run) out = Some (BoolArray mask)
  end.
Proof.
  intros Hvolume. cbv zeta.
  assert (Hlt : volume < length h) by (apply nth_error_Some; congruence).
  unfold largest_connected_component_ref.
  erewrite bind_read by exact Hvolume. rewrite bind_alloc.
  rewrite largest_connected_component_object_eq.
  destruct (label_object o) as [labels nb]. cbn [fst snd].
  destruct (nb =? 0); [reflexivity|].
  destruct (nb =? 1).
  { eexists. split; [reflexivity|].
    match goal with |- _ /\ _ /\ ?G => assert (Hout : G) by apply nth_error_snoc end.
    split; [|split; [|exact Hout]]; rewrite !length_app; cbn [length]; lia. }
  erewrite bind_read_int by apply nth_error_snoc. rewrite bind_alloc.
  erewrite bind_read_int by apply nth_error_snoc.
  unfold select_largest. cbn [flat shape].
  destruct (setitem (bincount (flat labels)) 0 0) as [cells|]; [|reflexivity].
  erewrite bind_write by apply setitem_snoc.
  erewrite bind_read_int by apply nth_error_snoc. cbn [flat].
  destruct (argmax cells) as [k|]; [|reflexivity].
  eexists. split; [reflexivity|].
  match goal with |- _ /\ _ /\ ?G => assert (Hout : G) by apply nth_error_snoc end.
  split; [|split; [|exact Hout]]; rewrite !length_app; cbn [length]; lia.
Qed.

(** X12: the run of [_peak_local_max] on a reference ends as the function
    on the array does; the mask it returns is the array [out] it allocates
    first, a new object whatever branch returns it, and the caller's image
    is as it was: the in-place product [image *= mask] lands in the
    copy. *)
Theorem peak_mask_is_new {ties : TieOrder} (h : heap) (image : ref) (a : ndarray Q)
  (min_distance : nat) (threshold_abs threshold_rel : Q) (num_peaks : option nat) :
  nth_error h image = Some (FloatArray a) ->
  let run := _peak_local_max_ref image min_distance threshold_abs threshold_rel num_peaks h in
  nth_error (fst run) image = Some (FloatArray a) /\
  match _peak_local_max a min_distance threshold_abs threshold_rel num_peaks with
  | inl e => snd run = inl e
  | inr mask => exists out, snd run = inr out /\ length h <= out /\ out <> image /\
                            nth_error (fst run) out = Some (BoolArray mask)
  end.
Proof.
  intros Himage. cbv zeta.
  assert (Hlt : image < length h) by (apply nth_error_Some; congruence).
  split.
  { destruct (@peak_local_max_ref_frame ties (length h) image min_distance threshold_abs
                threshold_rel num_peaks h (le_n _)) as [_ [Hsame _]].
    rewrite Hsame by exact Hlt. exact Himage. }
  unfold _peak_local_max_ref, _peak_local_max.
  erewrite bind_read_float by exact Himage. rewrite bind_alloc.
  destruct (nth_error (flat a) 0) as [first|]; [|reflexivity].
  destruct (forallb (fun x => Qeq_bool x first) (flat a)).
  { exists (length h). split; [reflexivity|]. split; [lia|]. split; [lia|].
    apply nth_error_snoc. }
  rewrite bind_alloc.
  erewrite bind_read_float by apply nth_error_snoc.
  erewrite bind_write by apply setitem_snoc.
  erewrite bind_read_float by apply nth_error_snoc.
  change (imul_mask a (eq_array a (maximum_filter a (2 * min_distance + 1))))
    with (masked_image a min_distance).
  unfold peak_threshold.
  destruct (np_max (flat (masked_image a min_distance))) as [m|]; [|reflexivity].
  erewrite bind_read_bool
    by (rewrite nth_error_app1 by (rewrite length_app; simpl; lia); apply nth_error_snoc).
  destruct (setitem_coords _ _ _) as [cells|]; [|reflexivity].
  erewrite bind_write by (apply setitem_app_l; apply setitem_snoc).
  exists (length h). split; [reflexivity|]. split; [lia|]. split; [lia|]. simpl fst.
  rewrite nth_error_app1 by (rewrite length_app; simpl; lia). apply nth_error_snoc.
Qed.

(** * The further properties at concrete grids *)

Lemma largest_component_inside_witness :
  shape first_region = shape tied_grid /\
  length (flat first_region) = length (flat tied_grid) /\
  (forall j, marked (flat first_region) j = true -> is_feat (features tied_grid) j = true) /\
  exists j, marked (flat first_region) j = true.
Proof.
  apply (largest_component_inside tied_grid (mask := first_region)).
  vm_compute. reflexivity.
Defined.

Lemma largest_component_maximal_witness :
  length [2] <= count_true (flat first_region).
Proof.
  apply (@largest_component_maximal nat _ tied_grid first_region 2 [2]).
  - vm_compute. reflexivity.
  - constructor; [simpl; tauto | constructor].
  - intros j [<-|[]]. apply connected_refl. reflexivity.
Defined.

Section PeakExtraExamples.
Existing Instance index_order.

Lemma peak_is_local_maximum_witness :
  (0 < cell line_grid 2)%Q /\
  forall j, j < length (flat line_grid) ->
            near 1 (unravel_index 2 (shape line_grid)) (unravel_index j (shape line_grid)) ->
            (cell line_grid j <= cell line_grid 2)%Q.
Proof.
  apply (@peak_is_local_maximum index_order line_grid 1 0%Q 0%Q eq_refl None line_peaks 2).
  - unfold Qle. simpl. lia.
  - vm_compute. reflexivity.
  - reflexivity.
Defined.

Lemma close_peaks_are_equal_witness :
  (cell plateau_grid 1 == cell plateau_grid 2)%Q.
Proof.
  apply (@close_peaks_are_equal index_order plateau_grid 1 0%Q 0%Q eq_refl None plateau_peaks 1 2).
  - unfold Qle. simpl. lia.
  - vm_compute. reflexivity.
  - reflexivity.
  - reflexivity.
  - constructor; [simpl; lia | constructor].
Defined.

Lemma peak_mask_shape_witness :
  shape line_peaks = shape line_grid /\ length (flat line_peaks) = length (flat line_grid).
Proof.
  apply (@peak_mask_shape index_order line_grid 1 0%Q 0%Q eq_refl None line_peaks).
  vm_compute. reflexivity.
Defined.

Lemma no_peak_below_threshold_abs_witness :
  _peak_local_max line_grid 1 5%Q 0%Q None = inr (zeros_like_bool line_grid).
Proof.
  apply (@no_peak_below_threshold_abs index_order line_grid 1 5%Q 0%Q eq_refl None).
  - discriminate.
  - unfold Qle. simpl. lia.
  - intros j Hj. do 10 (destruct j as [|j]; [unfold Qle; simpl; lia|]).
    simpl in Hj. lia.
Defined.

Lemma capped_peaks_are_peaks_witness :
  exists all_peaks,
    _peak_local_max line_grid 1 0%Q 0%Q None = inr all_peaks /\
    forall i, marked (flat line_top_peak) i = true -> marked (flat all_peaks) i = true.
Proof.
  apply (@capped_peaks_are_peaks index_order line_grid 1 0%Q 0%Q eq_refl 1 line_top_peak).
  vm_compute. reflexivity.
Defined.

Lemma plateau_cells_are_peaks_witness :
  marked (flat plateau_peaks) 2 = true.
Proof.
  apply (@plateau_cells_are_peaks index_order plateau_grid 1 0%Q 0%Q None plateau_peaks 1 eq_refl).
  - vm_compute. reflexivity.
  - reflexivity.
  - unfold Qle. simpl. lia.
  - reflexivity.
  - simpl. lia.
  - vm_compute. reflexivity.
  - reflexivity.
Defined.

End PeakExtraExamples.

Lemma border_zero_is_everything_witness :
  get_border_data block_grid 0 = inr (flat block_grid ++ flat block_grid ++ flat block_grid).
Proof.
  apply (@border_zero_is_everything nat block_grid eq_refl). simpl. lia.
Defined.

Lemma border_membership_witness :
  In 4 block_border
  <-> exists i axis,
        nth_error (flat block_grid) i = Some 4 /\ axis < 3 /\
        (coordinate (shape block_grid) axis i < Z.to_nat 1 \/
         nth axis (shape block_grid) 0 <= coordinate (shape block_grid) axis i + Z.to_nat 1).
Proof.
  apply (@border_membership nat block_grid eq_refl 1%Z block_border 4).
  - simpl. lia.
  - reflexivity.
  - vm_compute. reflexivity.
Defined.

Lemma border_length_witness :
  exists border,
    get_border_data block_grid 1 = inr border /\
    length border
    = 2 * (Nat.min (Z.to_nat 1) 2 * (2 * 3) + 2 * (Nat.min (Z.to_nat 1) 2 * 3)
           + 2 * (2 * Nat.min (Z.to_nat 1) 3)).
Proof.
  apply (@border_length nat block_grid 2 2 3 eq_refl eq_refl 1%Z). reflexivity.
Defined.

Lemma img_list_first_failure_witness :
  largest_connected_component_img array_check_niimg_3d array_get_affine
    array_safe_get_data array_new_img_like (iterable [line_grid; zero_line])
  = inl ValueError_no_components.
Proof.
  apply (@img_list_first_failure _ _ _ array_check_niimg_3d array_get_affine
           array_safe_get_data array_new_img_like [line_grid] [] zero_line
           ValueError_no_components).
  - intros x [<-|[]]. eexists. vm_compute. reflexivity.
  - vm_compute. reflexivity.
Defined.

Lemma img_without_component_witness :
  largest_connected_component_img array_check_niimg_3d array_get_affine
    array_safe_get_data array_new_img_like (one_img zero_line)
  = inl ValueError_no_components /\
  forall pre post,
    (forall x, In x pre ->
               exists out, component_of_img array_check_niimg_3d array_get_affine
                             array_safe_get_data array_new_img_like x = inr out) ->
    largest_connected_component_img array_check_niimg_3d array_get_affine
      array_safe_get_data array_new_img_like (iterable (pre ++ zero_line :: post))
    = inl ValueError_no_components.
Proof.
  apply (@img_without_component _ _ _ array_check_niimg_3d array_get_affine
           array_safe_get_data array_new_img_like zero_line zero_line tt
           (FloatArray zero_line)); reflexivity.
Defined.

Lemma largest_component_mask_is_new_witness :
  exists out,
    snd (largest_connected_component_ref 0 [FloatArray line_grid]) = inr out /\
    1 <= out /\ out <> 0 /\
    nth_error (fst (largest_connected_component_ref 0 [FloatArray line_grid])) out
    = Some (BoolArray line_top_peak).
Proof.
  apply (@largest_component_mask_is_new [FloatArray line_grid] 0 (FloatArray line_grid)).
  reflexivity.
Defined.

Section HeapExtraExamples.
Existing Instance index_order.

Lemma peak_mask_is_new_witness :
  nth_error (fst (_peak_local_max_ref 0 1 0%Q 0%Q None [FloatArray line_grid])) 0
  = Some (FloatArray line_grid) /\
  exists out,
    snd (_peak_local_max_ref 0 1 0%Q 0%Q None [FloatArray line_grid]) = inr out /\
    1 <= out /\ out <> 0 /\
    nth_error (fst (_peak_local_max_ref 0 1 0%Q 0%Q None [FloatArray line_grid])) out
    = Some (BoolArray line_peaks).
Proof.
  apply (@peak_mask_is_new index_order [FloatArray line_grid] 0 line_grid 1 0%Q 0%Q None).
  reflexivity.
Defined.
End HeapExtraExamples.
